(** * Priority task queue (concurrency + fairness)

    A shallow embedding of [createTaskQueue] from the exercise
    "Priority Task Queue": the aging score, the linear selector
    [pickNextIndex], the dispatcher [pump], submission ([enqueue]) and
    cancellation ([cancel]), together with the promise chain that [pump]
    attaches to every dispatched record.

    Modelling conventions.
    - JavaScript numbers that the scheduler manipulates (priorities,
      [Date.now()] readings, [agingMs], [concurrency], [running]) are
      integers here ([Z]); [Math.floor (w / a)] is [Z.div], which is floor
      division for every non-zero divisor.  Division by [agingMs = 0]
      (JavaScript: an infinity or NaN) is outside the model.
    - The closure variables of one [createTaskQueue] call form the record
      [state].  The array [q] is a [list item] in insertion order; the
      promise returned by each [enqueue] lives in a store indexed by the
      task id; the promise chains started by [pump] are the [slots].
    - [Date.now()] is an oracle: every call site receives its reading as an
      argument, [pump] receives one reading per loop iteration.
    - The host's job queue is modelled by [event]: each reaction of the
      chain [Promise.resolve().then(run).then(resolve, reject).finally(..)]
      is one event, and events may interleave in any order.  A reaction fires
      only for a chain that is in the matching phase, and [cancel] exists
      only for ids that [enqueue] returned; any other event leaves the
      state as it is.
    - [trace] is a history variable: it records what the scheduler did
      (dispatches, calls of work units, settlements) and is never read by
      the code. *)

From stdpp Require Import base numbers option list gmap fin_maps.

Open Scope Z_scope.

(** ** Values *)

(** Rejection reasons: the error built by [cancel] (name "CancelError"), the
    [TypeError] the engine raises, and whatever a work unit fails with. *)
Inductive reason :=
  | CancelError
  | TypeError
  | Failure (e : Z).

(** A settled promise value. *)
Inductive outcome :=
  | Fulfilled (v : Z)
  | Rejected (e : reason).

(** State of the promise handed to the caller. *)
Inductive pstate :=
  | Pending
  | Settled (o : outcome).

(** What the call of a work unit ends with: a value, or a failure with any
    reason at all.  The reason is handed on as it is, so it may be an error
    of the work unit's own ([Failure]) as well as an error the work unit only
    relays, such as the rejection of another task's promise that it
    returned. *)
Inductive result :=
  | Returns (v : Z)
  | Throws (e : reason).

Definition of_result (r : result) : outcome :=
  match r with
  | Returns v => Fulfilled v
  | Throws e => Rejected e
  end.

(** The first argument of [enqueue]: any value; only functions can be called. *)
Inductive work :=
  | Callable
  | NotCallable.

(** An argument that is destructured by a parameter pattern with a default. *)
Inductive jsarg (A : Type) :=
  | Undefined
  | Null
  | Obj (o : A).
Arguments Undefined {A}.
Arguments Null {A}.
Arguments Obj {A} o.

(** Completion of a call: normal return or a thrown error. *)
Inductive completion (A : Type) :=
  | Normal (a : A)
  | Throw (e : reason).
Arguments Normal {A} a.
Arguments Throw {A} e.

#[global] Instance reason_eq_dec : EqDecision reason.
Proof. solve_decision. Defined.
#[global] Instance outcome_eq_dec : EqDecision outcome.
Proof. solve_decision. Defined.
#[global] Instance pstate_eq_dec : EqDecision pstate.
Proof. solve_decision. Defined.

(** ** Priority classes *)

Module Priority.
Definition high : Z := 0.
Definition normal : Z := 1.
Definition low : Z := 2.
End Priority.

(** ** Task records *)

(** [{ id, priority, enqueuedAt, run, resolve, reject, canceled }]; [resolve]
    and [reject] are the capabilities of promise [id] in the store. *)
Record item := Item {
  id : nat;
  priority : Z;
  enqueuedAt : Z;
  run : work;
  canceled : bool
}.

#[global] Instance work_eq_dec : EqDecision work.
Proof. solve_decision. Defined.
#[global] Instance item_eq_dec : EqDecision item.
Proof. solve_decision. Defined.

(** Where a dispatched record is in its promise chain. *)
Inductive phase :=
  | Scheduled                (* the reaction calling [item.run()] is queued *)
  | InFlight                 (* [item.run()] was called, its result is awaited *)
  | Completed (o : outcome)  (* the [run] step settled; resolve/reject is queued *)
  | Delivered.               (* resolve/reject was called; [finally] is queued *)

Record slot := Slot {
  slot_item : item;
  slot_phase : phase
}.

(** History of what the scheduler did. *)
Inductive effect :=
  | Dispatch (i : nat)               (* [running += 1] for record [i] *)
  | Invoke (i : nat)                 (* [item.run()] entered a callable *)
  | Complete (i : nat) (o : outcome) (* the [run] step settled with [o] *)
  | Settle (i : nat) (o : outcome).  (* promise [i] left the pending state *)

#[global] Instance effect_eq_dec : EqDecision effect.
Proof. solve_decision. Defined.

Record state := State {
  concurrency : Z;
  agingMs : Z;
  running : Z;
  idSeq : nat;
  q : list item;
  slots : gmap nat slot;
  promises : gmap nat pstate;
  trace : list effect
}.

(** Options objects. A missing property is [None]. *)
Record queue_opts := QueueOpts {
  opt_concurrency : option Z;
  opt_agingMs : option Z
}.

Record enqueue_opts := EnqueueOpts {
  opt_priority : option Z
}.

Record handle := Handle {
  handle_id : nat
}.

(** ** Aging score and selector *)

(** [score(item, now)] inside [pickNextIndex].  The division is the code's
    for every [agingMs] other than 0; the code's division by 0 (an infinity
    or NaN) has no counterpart here, and the theorems about the value of the
    score or about which record is selected assume [agingMs <> 0]. *)
Definition score (agingMs : Z) (it : item) (now : Z) : Z :=
  let waited := now - enqueuedAt it in
  let boost := waited / agingMs in
  Z.max 0 (priority it - boost).

(** The [for] loop of [pickNextIndex]: [i] is the index of the head of
    [rest]; a later record replaces the best one only on a strictly smaller
    score. *)
Fixpoint pick_loop (agingMs now : Z) (rest : list item) (i bestIdx : nat)
    (bestScore : Z) : nat :=
  match rest with
  | [] => bestIdx
  | it :: rest' =>
      let s := score agingMs it now in
      if s <? bestScore
      then pick_loop agingMs now rest' (S i) i s
      else pick_loop agingMs now rest' (S i) bestIdx bestScore
  end.

Definition pickNextIndex (agingMs : Z) (q : list item) (now : Z) : Z :=
  match q with
  | [] => -1
  | it0 :: rest =>
      Z.of_nat (pick_loop agingMs now rest 1 0 (score agingMs it0 now))
  end.

(** ** Dispatcher *)

Definition set_q (l : list item) (st : state) : state :=
  State (concurrency st) (agingMs st) (running st) (idSeq st) l
        (slots st) (promises st) (trace st).

(** [running += 1] and the start of the promise chain for [it]. *)
Definition dispatch (it : item) (st : state) : state :=
  State (concurrency st) (agingMs st) (running st + 1) (idSeq st) (q st)
        (<[id it := Slot it Scheduled]> (slots st)) (promises st)
        (trace st ++ [Dispatch (id it)]).

(** The [while] loop of [pump]; [clk k] is the reading of [Date.now()] in
    iteration [k].  Every iteration that does not leave the loop removes one
    record from [q], so [S (length q)] iterations always suffice
    ([pump_loop_fuel]).  [q.splice(idx, 1)[0]] is always a record, since
    [idx] is a position of [q] ([pickNextIndex_range]); the [None] branch is
    never taken. *)
Fixpoint pump_loop (fuel : nat) (clk : nat → Z) (k : nat) (st : state) : state :=
  match fuel with
  | O => st
  | S fuel' =>
      if running st <? concurrency st then
        let idx := pickNextIndex (agingMs st) (q st) (clk k) in
        if idx =? -1 then st
        else
          match q st !! Z.to_nat idx with
          | None => st
          | Some it =>
              let st1 := set_q (delete (Z.to_nat idx) (q st)) st in
              if canceled it then pump_loop fuel' clk (S k) st1
              else pump_loop fuel' clk (S k) (dispatch it st1)
          end
      else st
  end.

Definition pump (clk : nat → Z) (st : state) : state :=
  pump_loop (S (length (q st))) clk 0 st.

(** ** Promise store *)

(** [resolve]/[reject] of promise [i]: only the first call has an effect. *)
Definition settle (i : nat) (o : outcome) (st : state) : state :=
  match promises st !! i with
  | Some Pending =>
      State (concurrency st) (agingMs st) (running st) (idSeq st) (q st)
            (slots st) (<[i := Settled o]> (promises st))
            (trace st ++ [Settle i o])
  | _ => st
  end.

(** ** Construction, submission, cancellation *)

Definition initial (c a : Z) : state :=
  State c a 0 1 [] ∅ ∅ [].

Definition createTaskQueue (arg : jsarg queue_opts) : completion state :=
  match arg with
  | Null => Throw TypeError
  | Undefined => Normal (initial 2 200)
  | Obj o =>
      Normal (initial (default 2 (opt_concurrency o))
                      (default 200 (opt_agingMs o)))
  end.

(** [stats()]. *)
Definition stats (st : state) : Z * Z :=
  (Z.of_nat (length (q st)), running st).

Definition enqueue_priority (arg : jsarg enqueue_opts) : completion Z :=
  match arg with
  | Null => Throw TypeError
  | Undefined => Normal Priority.normal
  | Obj o => Normal (default Priority.normal (opt_priority o))
  end.

(** The record built by the promise executor and pushed on [q]. *)
Definition new_item (st : state) (w : work) (p now : Z) : item :=
  Item (idSeq st) p now w false.

Definition push (it : item) (st : state) : state :=
  State (concurrency st) (agingMs st) (running st) (S (idSeq st))
        (q st ++ [it]) (slots st) (<[id it := Pending]> (promises st))
        (trace st).

Definition enqueue (w : work) (arg : jsarg enqueue_opts) (now : Z)
    (clk : nat → Z) (st : state) : completion (state * handle) :=
  match enqueue_priority arg with
  | Throw e => Throw e
  | Normal p =>
      let it := new_item st w p now in
      Normal (pump clk (push it st), Handle (id it))
  end.

Definition mark (i : nat) (it : item) : item :=
  if decide (id it = i)
  then Item (id it) (priority it) (enqueuedAt it) (run it) true
  else it.

Definition mark_slot (i : nat) (s : slot) : slot :=
  Slot (mark i (slot_item s)) (slot_phase s).

(** [item.canceled = true]: the record is shared with [q] or with the
    promise chain that holds it. *)
Definition mark_canceled (i : nat) (st : state) : state :=
  State (concurrency st) (agingMs st) (running st) (idSeq st)
        (mark i <$> q st) (mark_slot i <$> slots st) (promises st) (trace st).

(** The [cancel] closure of the handle with id [i]. *)
Definition cancel (i : nat) (st : state) : state :=
  settle i (Rejected CancelError) (mark_canceled i st).

(** ** The promise chain of a dispatched record *)

Definition set_phase (i : nat) (it : item) (ph : phase) (e : list effect)
    (st : state) : state :=
  State (concurrency st) (agingMs st) (running st) (idSeq st) (q st)
        (<[i := Slot it ph]> (slots st)) (promises st) (trace st ++ e).

(** [() => item.run()]. *)
Definition run_reaction (i : nat) (st : state) : state :=
  match slots st !! i with
  | Some (Slot it Scheduled) =>
      match run it with
      | Callable => set_phase i it InFlight [Invoke i] st
      | NotCallable =>
          set_phase i it (Completed (Rejected TypeError))
                    [Complete i (Rejected TypeError)] st
      end
  | _ => st
  end.

(** The value returned by [item.run()] settles. *)
Definition complete (i : nat) (r : result) (st : state) : state :=
  match slots st !! i with
  | Some (Slot it InFlight) =>
      set_phase i it (Completed (of_result r)) [Complete i (of_result r)] st
  | _ => st
  end.

(** [.then(item.resolve, item.reject)]. *)
Definition deliver (i : nat) (st : state) : state :=
  match slots st !! i with
  | Some (Slot it (Completed o)) =>
      set_phase i it Delivered [] (settle i o st)
  | _ => st
  end.

(** [.finally(() => { running -= 1; pump(); })]. *)
Definition finally (i : nat) (clk : nat → Z) (st : state) : state :=
  match slots st !! i with
  | Some (Slot it Delivered) =>
      pump clk
        (State (concurrency st) (agingMs st) (running st - 1) (idSeq st)
               (q st) (delete i (slots st)) (promises st) (trace st))
  | _ => st
  end.

(** ** Runs of the scheduler *)

Inductive event :=
  | EvEnqueue (w : work) (arg : jsarg enqueue_opts) (now : Z) (clk : nat → Z)
  | EvCancel (i : nat)
  | EvRun (i : nat)
  | EvComplete (i : nat) (r : result)
  | EvDeliver (i : nat)
  | EvFinally (i : nat) (clk : nat → Z).

Definition step (st : state) (ev : event) : state :=
  match ev with
  | EvEnqueue w arg now clk =>
      match enqueue w arg now clk st with
      | Normal (st', _) => st'
      | Throw _ => st
      end
  | EvCancel i => cancel i st
  | EvRun i => run_reaction i st
  | EvComplete i r => complete i r st
  | EvDeliver i => deliver i st
  | EvFinally i clk => finally i clk st
  end.

Definition exec (evs : list event) (st : state) : state :=
  fold_left step evs st.

Inductive reachable (st0 : state) : state → Prop :=
  | reach_init : reachable st0 st0
  | reach_step st ev : reachable st0 st → reachable st0 (step st ev).

(** Outcome observed on promise [i]. *)
Definition observed (i : nat) (st : state) : option pstate :=
  promises st !! i.

(** ** Vocabulary of the properties *)

(** [n] is the first position of [l] holding a record of minimal score [s]. *)
Definition first_min (a now : Z) (l : list item) (n : nat) (s : Z) : Prop :=
  ∃ it, l !! n = Some it ∧ score a it now = s
    ∧ (∀ it', it' ∈ l → s ≤ score a it' now)
    ∧ (∀ m it', (m < n)%nat → l !! m = Some it' → s < score a it' now).

(** Ids grow along the queue: [q] is kept in insertion order. *)
Definition ids_increasing (l : list item) : Prop :=
  ∀ m n x y, (m < n)%nat → l !! m = Some x → l !! n = Some y →
    (id x < id y)%nat.

(** Shape of the closure state: the budget, the ids, and how [q], the slots
    and the promise store fit together. *)
Record Wf (st : state) : Prop := {
  wf_running : running st = Z.of_nat (size (slots st));
  wf_budget : running st ≤ Z.max 0 (concurrency st);
  wf_q_issued : ∀ it, it ∈ q st → (id it < idSeq st)%nat;
  wf_slot_issued : ∀ i s, slots st !! i = Some s →
    id (slot_item s) = i ∧ (i < idSeq st)%nat;
  wf_q_order : ids_increasing (q st);
  wf_q_not_slot : ∀ it, it ∈ q st → slots st !! id it = None;
  wf_q_promise : ∀ it, it ∈ q st →
    promises st !! id it =
      Some (if canceled it then Settled (Rejected CancelError) else Pending);
  wf_promise_issued : ∀ i, (idSeq st ≤ i)%nat → promises st !! i = None
}.

(** The task an effect is about. *)
Definition effect_id (e : effect) : nat :=
  match e with
  | Dispatch i | Invoke i | Complete i _ | Settle i _ => i
  end.

(** The outcome, when [e] settles promise [i]. *)
Definition settled_by (i : nat) (e : effect) : option outcome :=
  match e with
  | Settle j o => if decide (j = i) then Some o else None
  | _ => None
  end.

(** The outcomes with which promise [i] was settled, oldest first. *)
Definition settlements (i : nat) (tr : list effect) : list outcome :=
  omap (settled_by i) tr.

(** How the history relates to the current state. *)
Record Hist (st : state) : Prop := {
  hist_settle : ∀ i, settlements i (trace st) =
    match promises st !! i with Some (Settled o) => [o] | _ => [] end;
  hist_issued : ∀ e, e ∈ trace st → (effect_id e < idSeq st)%nat;
  hist_q : ∀ it e, it ∈ q st → e ∈ trace st → effect_id e = id it →
    e = Settle (id it) (Rejected CancelError);
  hist_slot : ∀ i s, slots st !! i = Some s → Dispatch i ∈ trace st;
  hist_invoke : ∀ i, Invoke i ∈ trace st → Dispatch i ∈ trace st;
  hist_complete : ∀ i o, Complete i o ∈ trace st → Dispatch i ∈ trace st;
  hist_completed : ∀ i it o, slots st !! i = Some (Slot it (Completed o)) →
    Complete i o ∈ trace st;
  hist_source : ∀ i o, promises st !! i = Some (Settled o) →
    o = Rejected CancelError ∨ Complete i o ∈ trace st
}.

(** Both invariants together. *)
Definition Inv (st : state) : Prop := Wf st ∧ Hist st.

(** A clock that reads 0 at every call. *)
Definition noon : nat → Z := λ _, 0.

(** The start of the demo of the source file: two low-priority jobs and a
    normal one at time 0, a high-priority job at 40, and the first job
    finishing at 250. *)
Definition demo_events : list event :=
  [ EvEnqueue Callable (Obj (EnqueueOpts (Some Priority.low))) 0 noon;
    EvEnqueue Callable (Obj (EnqueueOpts (Some Priority.low))) 0 noon;
    EvEnqueue Callable (Obj (EnqueueOpts (Some Priority.normal))) 0 noon;
    EvRun 1; EvRun 2;
    EvEnqueue Callable (Obj (EnqueueOpts (Some Priority.high))) 40 noon;
    EvComplete 1 (Returns 11); EvDeliver 1; EvFinally 1 (λ _, 250) ].

Definition demo_queue : state := initial 2 150.


(** Record [i] was canceled while it was still queued: it is settled as
    canceled, holds no slot, was never dispatched or called, and any copy of
    it still in [q] carries the [canceled] flag. *)
Record Shelved (i : nat) (st : state) : Prop := {
  sh_flag : ∀ it, it ∈ q st → id it = i → canceled it = true;
  sh_slot : slots st !! i = None;
  sh_dispatch : Dispatch i ∉ trace st;
  sh_invoke : Invoke i ∉ trace st;
  sh_issued : (i < idSeq st)%nat;
  sh_outcome : observed i st = Some (Settled (Rejected CancelError))
}.

(** A queue of limit 1 with two submissions; the second one waits. *)
Definition one_at_a_time : state := initial 1 150.

Definition two_submitted : list event :=
  [ EvEnqueue Callable Undefined 0 noon; EvEnqueue Callable Undefined 0 noon ].

Definition first_finishes : list event :=
  [ EvRun 1; EvComplete 1 (Returns 7); EvDeliver 1; EvFinally 1 noon ].

Definition second_record : item := Item 2 1 0 Callable false.



(** One submission whose work unit has been called and is still running,
    and the reactions that follow when it returns 7. *)
Definition one_running : list event :=
  [ EvEnqueue Callable Undefined 0 noon; EvRun 1 ].

Definition work_returns : list event :=
  [ EvComplete 1 (Returns 7); EvDeliver 1; EvFinally 1 noon ].

(** Where record [it] is once [pump] returns: still queued, or dispatched
    with the call of its work unit pending. *)
Definition queued_or_scheduled (it : item) (st : state) : Prop :=
  it ∈ q st ∨ slots st !! id it = Some (Slot it Scheduled).

(** A queue built with the limit 0. *)
Definition no_budget : state := initial 0 200.

(** Ids whose work unit was called, in call order. *)
Definition invocations (tr : list effect) : list nat :=
  omap (λ e, match e with Invoke i => Some i | _ => None end) tr.

(** Ids in dispatch order. *)
Definition dispatches (tr : list effect) : list nat :=
  omap (λ e, match e with Dispatch i => Some i | _ => None end) tr.

(** Three submissions with the same priority, each record run to the end
    before the next reaction of the chain of its successor. *)
Definition three_same_priority (p t1 t2 t3 : Z) (clk : nat → Z)
    (r1 r2 r3 : result) : list event :=
  [ EvEnqueue Callable (Obj (EnqueueOpts (Some p))) t1 clk;
    EvEnqueue Callable (Obj (EnqueueOpts (Some p))) t2 clk;
    EvEnqueue Callable (Obj (EnqueueOpts (Some p))) t3 clk;
    EvRun 1; EvComplete 1 r1; EvDeliver 1; EvFinally 1 clk;
    EvRun 2; EvComplete 2 r2; EvDeliver 2; EvFinally 2 clk;
    EvRun 3; EvComplete 3 r3; EvDeliver 3; EvFinally 3 clk ].

(** The dispatcher has nothing to do: the budget is used up or no record
    is queued. *)
Definition settled_down (st : state) : Prop :=
  concurrency st ≤ running st ∨ q st = [].

(** Whether an event is a submission that [enqueue] accepts. *)
Definition accepted (ev : event) : bool :=
  match ev with
  | EvEnqueue _ Null _ _ => false
  | EvEnqueue _ _ _ _ => true
  | _ => false
  end.

(** Number of accepted submissions in a run. *)
Definition submissions (evs : list event) : nat :=
  length (filter (λ ev, accepted ev = true) evs).

(** A record whose call is still queued has not been called. *)
Definition uncalled_scheduled (st : state) : Prop :=
  ∀ i it, slots st !! i = Some (Slot it Scheduled) → Invoke i ∉ trace st.

(** No record was dispatched twice or called twice. *)
Record Once (st : state) : Prop := {
  once_dispatch : NoDup (dispatches (trace st));
  once_invoke : NoDup (invocations (trace st));
  once_uncalled : uncalled_scheduled st
}.

(** What the dispatcher reads and writes: everything but the promise store
    and the history. *)
Definition core (st : state) : Z * Z * Z * nat * list item * gmap nat slot :=
  (concurrency st, agingMs st, running st, idSeq st, q st, slots st).

(** The two records waiting in the demo of the source file when the first
    slot frees: the normal one from time 0 and the high one from time 40. *)
Definition demo_waiting : list item :=
  [ Item 3 Priority.normal 0 Callable false;
    Item 4 Priority.high 40 Callable false ].


(** A queue of limit 1 on which a low-priority record from time 0 and a
    high-priority record from time 300 wait behind a running one. *)
Definition aged_and_fresh : list event :=
  [ EvEnqueue Callable (Obj (EnqueueOpts (Some Priority.low))) 0 noon;
    EvEnqueue Callable (Obj (EnqueueOpts (Some Priority.low))) 0 noon;
    EvEnqueue Callable (Obj (EnqueueOpts (Some Priority.high))) 300 noon ].

(** * Properties *)

(** ** The aging score *)

Section Score.
Variable a : Z.
Hypothesis a_pos : 0 < a.

Lemma floor_unique (w k : Z) : k * a ≤ w < (k + 1) * a → w / a = k.
Proof.
  intros [Hlo Hhi]. symmetry.
  apply (Z.div_unique w a k (w - k * a)); lia.
Qed.

Lemma score_nonneg (it : item) (now : Z) : 0 ≤ score a it now.
Proof. unfold score. lia. Qed.

Lemma score_antitone (it : item) (now1 now2 : Z) :
  now1 ≤ now2 → score a it now2 ≤ score a it now1.
Proof.
  intros Hle. unfold score.
  assert ((now1 - enqueuedAt it) / a ≤ (now2 - enqueuedAt it) / a)
    by (apply Z.div_le_mono; lia).
  lia.
Qed.

Lemma score_fresh (it : item) (now : Z) :
  0 ≤ now - enqueuedAt it < a → score a it now = Z.max 0 (priority it).
Proof.
  intros Hw. unfold score. rewrite Z.div_small by lia. f_equal. lia.
Qed.
End Score.

(** ** The selector *)

Lemma pick_loop_first_min (a now : Z) (rest pre : list item) (b : nat) (s : Z) :
  first_min a now pre b s →
  ∃ s', first_min a now (pre ++ rest)
          (pick_loop a now rest (length pre) b s) s'.
Proof.
  revert pre b s. induction rest as [|it rest IH]; intros pre b s Hfm.
  - exists s. by rewrite app_nil_r.
  - destruct Hfm as (bi & Hb & Hs & Hmin & Hfirst).
    assert (Hblt : (b < length pre)%nat) by (eapply lookup_lt_Some; eauto).
    replace (pre ++ it :: rest) with ((pre ++ [it]) ++ rest)
      by (by rewrite <- app_assoc).
    cbn [pick_loop].
    replace (S (length pre)) with (length (pre ++ [it]))
      by (rewrite length_app; simpl; lia).
    destruct (Z.ltb_spec (score a it now) s) as [Hlt | Hge].
    + apply IH. exists it. split_and!.
      * by rewrite lookup_app_r, Nat.sub_diag by lia.
      * done.
      * intros it' [Hin | ->%list_elem_of_singleton]%elem_of_app; [|lia].
        specialize (Hmin _ Hin). lia.
      * intros m it' Hm Hlk. rewrite lookup_app_l in Hlk by lia.
        assert (it' ∈ pre) as Hin by (eapply list_elem_of_lookup_2; eauto).
        specialize (Hmin _ Hin). lia.
    + apply IH. exists bi. split_and!.
      * by rewrite lookup_app_l by lia.
      * done.
      * intros it' [Hin | ->%list_elem_of_singleton]%elem_of_app; [auto | lia].
      * intros m it' Hm Hlk. rewrite lookup_app_l in Hlk by lia. eauto.
Qed.

Lemma pickNextIndex_empty (a now : Z) : pickNextIndex a [] now = -1.
Proof. reflexivity. Qed.

Lemma pickNextIndex_first_min (a now : Z) (l : list item) :
  l ≠ [] →
  ∃ n s, pickNextIndex a l now = Z.of_nat n ∧ first_min a now l n s.
Proof.
  destruct l as [|it0 rest]; [done | intros _].
  destruct (pick_loop_first_min a now rest [it0] 0 (score a it0 now))
    as [s' Hfm].
  - exists it0. split_and!; [done | done | |].
    + intros it' ->%list_elem_of_singleton. lia.
    + intros m it' Hm. lia.
  - eexists _, s'. split; [reflexivity | exact Hfm].
Qed.

Lemma pickNextIndex_range (a now : Z) (l : list item) :
  l ≠ [] →
  ∃ n it, pickNextIndex a l now = Z.of_nat n ∧ l !! n = Some it.
Proof.
  intros Hne. destruct (pickNextIndex_first_min a now l Hne)
    as (n & s & Hn & it & Hit & _).
  eauto.
Qed.

(** With equal scores everywhere the head of the queue is selected. *)
Lemma pickNextIndex_head (a now : Z) (it : item) (rest : list item) :
  (∀ it', it' ∈ rest → score a it now ≤ score a it' now) →
  pickNextIndex a (it :: rest) now = 0.
Proof.
  intros Hle.
  destruct (pickNextIndex_first_min a now (it :: rest)) as
    (n & s & Hn & x & Hx & Hs & Hmin & Hfirst); [done|].
  rewrite Hn. destruct n as [|n]; [done | exfalso].
  specialize (Hfirst 0%nat it ltac:(lia) eq_refl).
  simpl in Hx. apply list_elem_of_lookup_2 in Hx. specialize (Hle _ Hx). lia.
Qed.

(** ** The dispatcher loop *)

(** One iteration of [pump] either leaves the loop, drops a canceled record,
    or dispatches a record; any property kept by the last two is kept by the
    whole loop. *)
Lemma pump_loop_preserves (P : state → Prop) :
  (∀ st n it, running st < concurrency st → q st !! n = Some it →
     canceled it = true → P st → P (set_q (delete n (q st)) st)) →
  (∀ st n it, running st < concurrency st → q st !! n = Some it →
     canceled it = false → P st →
     P (dispatch it (set_q (delete n (q st)) st))) →
  ∀ fuel clk k st, P st → P (pump_loop fuel clk k st).
Proof.
  intros Hdrop Hdisp fuel clk. induction fuel as [|fuel IH]; intros k st HP.
  - done.
  - cbn [pump_loop].
    destruct (Z.ltb_spec (running st) (concurrency st)) as [Hlt|]; [|done].
    destruct (_ =? -1); [done|].
    destruct (q st !! _) as [it|] eqn:Hit; [|done].
    destruct (canceled it) eqn:Hc; apply IH; eauto.
Qed.

(** The loop never needs more than [S (length q)] iterations. *)
Lemma pump_loop_fuel (fuel extra : nat) (clk : nat → Z) (k : nat) (st : state) :
  (length (q st) < fuel)%nat →
  pump_loop (fuel + extra) clk k st = pump_loop fuel clk k st.
Proof.
  revert k st. induction fuel as [|fuel IH]; intros k st Hlen; [lia|].
  cbn [pump_loop Nat.add].
  destruct (running st <? concurrency st); [|done].
  destruct (_ =? -1); [done|].
  destruct (q st !! _) as [it|] eqn:Hit; [|done].
  assert ((length (delete (Z.to_nat (pickNextIndex (agingMs st) (q st) (clk k)))
                          (q st)) < fuel)%nat) as Hlen'.
  { rewrite length_delete by eauto. apply lookup_lt_Some in Hit. lia. }
  destruct (canceled it); apply IH; exact Hlen'.
Qed.

(** When [pump] returns, the budget is used up or nothing is queued: the loop
    was left through its condition or through [return], not for lack of
    fuel. *)
Lemma pump_loop_done (fuel : nat) (clk : nat → Z) (k : nat) (st : state) :
  (length (q st) < fuel)%nat →
  concurrency (pump_loop fuel clk k st) ≤ running (pump_loop fuel clk k st)
  ∨ q (pump_loop fuel clk k st) = [].
Proof.
  revert k st. induction fuel as [|fuel IH]; intros k st Hlen; [lia|].
  cbn [pump_loop].
  destruct (Z.ltb_spec (running st) (concurrency st)) as [Hlt|]; [|by left].
  destruct (q st) as [|it0 rest] eqn:Hq; [by right|].
  destruct (pickNextIndex_range (agingMs st) (clk k) (it0 :: rest))
    as (n & it & Hn & Hit); [done|].
  rewrite Hn, Nat2Z.id, Hit.
  destruct (Z.eqb_spec (Z.of_nat n) (-1)); [lia|].
  assert ((length (delete n (it0 :: rest)) < fuel)%nat) as Hlen'.
  { rewrite length_delete by eauto. simpl in *. lia. }
  destruct (canceled it); apply IH; exact Hlen'.
Qed.

Lemma pump_done (clk : nat → Z) (st : state) :
  concurrency (pump clk st) ≤ running (pump clk st) ∨ q (pump clk st) = [].
Proof. apply pump_loop_done. lia. Qed.

(** Without spare budget [pump] does nothing. *)
Lemma pump_loop_full (fuel : nat) (clk : nat → Z) (k : nat) (st : state) :
  concurrency st ≤ running st → pump_loop fuel clk k st = st.
Proof.
  intros Hfull. destruct fuel; [done|]. cbn [pump_loop].
  destruct (Z.ltb_spec (running st) (concurrency st)); [lia | done].
Qed.

(** ** Structural invariant *)

Lemma elem_of_delete_lookup {A} (l : list A) (n : nat) (x : A) :
  x ∈ delete n l → ∃ m, m ≠ n ∧ l !! m = Some x.
Proof.
  intros [m Hm]%list_elem_of_lookup_1.
  destruct (decide (m < n)%nat).
  - exists m. rewrite list_lookup_delete_lt in Hm by done. split; [lia | done].
  - exists (S m). rewrite list_lookup_delete_ge in Hm by lia. split; [lia | done].
Qed.

Lemma elem_of_delete_elem {A} (l : list A) (n : nat) (x : A) :
  x ∈ delete n l → x ∈ l.
Proof.
  intros (m & _ & Hm)%elem_of_delete_lookup.
  eapply list_elem_of_lookup_2; eauto.
Qed.

Lemma ids_increasing_delete (l : list item) (n : nat) :
  ids_increasing l → ids_increasing (delete n l).
Proof.
  intros Hs m1 m2 x y Hlt Hx Hy.
  destruct (decide (m1 < n)%nat), (decide (m2 < n)%nat).
  - rewrite list_lookup_delete_lt in Hx, Hy by done.
    eapply (Hs m1 m2); eauto.
  - rewrite list_lookup_delete_lt in Hx by done.
    rewrite list_lookup_delete_ge in Hy by lia. eapply (Hs m1 (S m2)); eauto; lia.
  - lia.
  - rewrite list_lookup_delete_ge in Hx, Hy by lia.
    eapply (Hs (S m1) (S m2)); eauto; lia.
Qed.

Lemma ids_increasing_inj (l : list item) (m n : nat) (x y : item) :
  ids_increasing l → l !! m = Some x → l !! n = Some y → id x = id y → m = n.
Proof.
  intros Hs Hx Hy Hid.
  destruct (Nat.lt_trichotomy m n) as [Hlt | [-> | Hlt]]; [|done|].
  - specialize (Hs _ _ _ _ Hlt Hx Hy). lia.
  - specialize (Hs _ _ _ _ Hlt Hy Hx). lia.
Qed.

Lemma Wf_initial (c a : Z) : Wf (initial c a).
Proof.
  split; simpl; try done; try lia;
    try (intros it Hin; by apply elem_of_nil in Hin).
Qed.

Lemma Wf_drop (st : state) (n : nat) :
  Wf st → Wf (set_q (delete n (q st)) st).
Proof.
  intros [H1 H2 H3 H4 H5 H6 H7 H8]. split; simpl; try done.
  - intros it Hin%elem_of_delete_elem. auto.
  - by apply ids_increasing_delete.
  - intros it Hin%elem_of_delete_elem. auto.
  - intros it Hin%elem_of_delete_elem. auto.
Qed.

Lemma Wf_dispatch (st : state) (n : nat) (it : item) :
  running st < concurrency st → q st !! n = Some it →
  Wf st → Wf (dispatch it (set_q (delete n (q st)) st)).
Proof.
  intros Hlt Hit [H1 H2 H3 H4 H5 H6 H7 H8].
  assert (it ∈ q st) as Hin by (eapply list_elem_of_lookup_2; eauto).
  split; simpl.
  - rewrite map_size_insert_None by auto. lia.
  - lia.
  - intros it' Hin'%elem_of_delete_elem. auto.
  - intros i s [[<- <-] | [Hne Hs]]%lookup_insert_Some; simpl; auto.
  - by apply ids_increasing_delete.
  - intros it' (m & Hm & Hlk)%elem_of_delete_lookup.
    rewrite lookup_insert_ne.
    + apply H6. eapply list_elem_of_lookup_2; eauto.
    + intros Heq. apply Hm. symmetry. eapply ids_increasing_inj; eauto.
  - intros it' Hin'%elem_of_delete_elem. auto.
  - done.
Qed.

Lemma Wf_pump_loop (fuel : nat) (clk : nat → Z) (k : nat) (st : state) :
  Wf st → Wf (pump_loop fuel clk k st).
Proof.
  apply pump_loop_preserves.
  - intros. by apply Wf_drop.
  - intros. by apply Wf_dispatch.
Qed.

Lemma id_mark (i : nat) (it : item) : id (mark i it) = id it.
Proof. unfold mark. by case_decide. Qed.

Lemma canceled_mark (i : nat) (it : item) :
  canceled (mark i it) = if decide (id it = i) then true else canceled it.
Proof. unfold mark. by case_decide. Qed.

Lemma mark_idem (i : nat) (it : item) : mark i (mark i it) = mark i it.
Proof. unfold mark. repeat (case_decide; simpl in *); done. Qed.

Lemma ids_increasing_mark (i : nat) (l : list item) :
  ids_increasing l → ids_increasing (mark i <$> l).
Proof.
  intros Hs m n x y Hlt (x' & -> & Hx)%list_lookup_fmap_Some
    (y' & -> & Hy)%list_lookup_fmap_Some.
  rewrite !id_mark. eapply (Hs m n); eauto.
Qed.

Lemma ids_increasing_snoc (l : list item) (it : item) :
  ids_increasing l → (∀ x, x ∈ l → (id x < id it)%nat) →
  ids_increasing (l ++ [it]).
Proof.
  intros Hs Hmax m n x y Hlt
    [[Hm Hx] | [-> ->]]%lookup_snoc_Some [[Hn Hy] | [-> ->]]%lookup_snoc_Some.
  - eapply (Hs m n); eauto.
  - apply Hmax. eapply list_elem_of_lookup_2; eauto.
  - lia.
  - lia.
Qed.

Lemma Wf_push (st : state) (w : work) (p now : Z) :
  Wf st → Wf (push (new_item st w p now) st).
Proof.
  intros [H1 H2 H3 H4 H5 H6 H7 H8]. split; simpl.
  - done.
  - done.
  - intros it [Hin | ->%list_elem_of_singleton]%elem_of_app; simpl.
    + specialize (H3 _ Hin). lia.
    + lia.
  - intros i s Hs. destruct (H4 _ _ Hs). split; [done | lia].
  - apply ids_increasing_snoc; [done|]. intros x Hx. simpl. auto.
  - intros it [Hin | ->%list_elem_of_singleton]%elem_of_app; simpl; [auto|].
    destruct (slots st !! idSeq st) as [s|] eqn:Hs; [|done].
    destruct (H4 _ _ Hs). lia.
  - intros it [Hin | ->%list_elem_of_singleton]%elem_of_app; simpl.
    + rewrite lookup_insert_ne; [auto|]. specialize (H3 _ Hin). lia.
    + by rewrite lookup_insert_eq.
  - intros i Hi. rewrite lookup_insert_ne by lia. apply H8. lia.
Qed.

Lemma Wf_cancel (i : nat) (st : state) : Wf st → Wf (cancel i st).
Proof.
  intros [H1 H2 H3 H4 H5 H6 H7 H8].
  assert (Hq : ∀ it', it' ∈ mark i <$> q st →
            ∃ it, it' = mark i it ∧ it ∈ q st)
    by (intros it'; apply list_elem_of_fmap).
  assert (Hs : ∀ j s', (mark_slot i <$> slots st) !! j = Some s' →
            ∃ s, mark_slot i s = s' ∧ slots st !! j = Some s)
    by (intros j s'; apply lookup_fmap_Some).
  unfold cancel, settle. cbn [promises mark_canceled].
  destruct (promises st !! i) as [[|o]|] eqn:Hp; split; simpl;
    try (by rewrite map_size_fmap); try done;
    try (by apply ids_increasing_mark);
    try (intros it' (it & -> & Hin)%Hq; rewrite ?id_mark; auto; fail);
    try (intros j s' (s & <- & Hj)%Hs; simpl; rewrite id_mark; eauto; fail);
    try (intros it' (it & -> & Hin)%Hq; rewrite id_mark, lookup_fmap, H6; done).
  - intros it' (it & -> & Hin)%Hq. rewrite id_mark, canceled_mark.
    case_decide as Hid.
    + subst i. by rewrite lookup_insert_eq.
    + rewrite lookup_insert_ne by done. auto.
  - intros j Hj. rewrite lookup_insert_ne; [auto|].
    intros <-. rewrite H8 in Hp; done.
  - intros it' (it & -> & Hin)%Hq. rewrite id_mark, canceled_mark.
    case_decide as Hid; [|auto].
    subst i. specialize (H7 _ Hin). rewrite Hp in H7.
    destruct (canceled it); congruence.
  - intros it' (it & -> & Hin)%Hq. rewrite id_mark, canceled_mark.
    case_decide as Hid; [|auto].
    subst i. specialize (H7 _ Hin). congruence.
Qed.

Lemma Wf_set_phase (i : nat) (it : item) (ph ph' : phase) (e : list effect)
    (st : state) :
  slots st !! i = Some (Slot it ph) → Wf st → Wf (set_phase i it ph' e st).
Proof.
  intros Hi [H1 H2 H3 H4 H5 H6 H7 H8]. split; simpl; try done.
  - by rewrite map_size_insert_Some by eauto.
  - intros j s [[<- <-] | [Hne Hs]]%lookup_insert_Some; simpl; [|eauto].
    apply (H4 _ _ Hi).
  - intros it' Hin. rewrite lookup_insert_ne; [auto|].
    intros ->. rewrite (H6 _ Hin) in Hi. done.
Qed.

Lemma slots_settle (i : nat) (o : outcome) (st : state) :
  slots (settle i o st) = slots st.
Proof. unfold settle. by destruct (promises st !! i) as [[|?]|]. Qed.

Lemma Wf_settle_slot (i : nat) (o : outcome) (s : slot) (st : state) :
  slots st !! i = Some s → Wf st → Wf (settle i o st).
Proof.
  intros Hi [H1 H2 H3 H4 H5 H6 H7 H8]. unfold settle.
  destruct (promises st !! i) as [[|o']|] eqn:Hp; split; simpl; try done.
  - intros it Hin. rewrite lookup_insert_ne; [auto|].
    intros ->. rewrite (H6 _ Hin) in Hi. done.
  - intros j Hj. rewrite lookup_insert_ne; [auto|].
    intros <-. rewrite H8 in Hp; done.
Qed.

Lemma Wf_release (i : nat) (s : slot) (st : state) :
  slots st !! i = Some s → Wf st →
  Wf (State (concurrency st) (agingMs st) (running st - 1) (idSeq st)
            (q st) (delete i (slots st)) (promises st) (trace st)).
Proof.
  intros Hi [H1 H2 H3 H4 H5 H6 H7 H8]. split; simpl; try done.
  - rewrite map_size_delete_Some by eauto.
    assert (size (slots st) ≠ 0%nat).
    { intros Hz%map_size_empty_inv. rewrite Hz in Hi. done. }
    lia.
  - lia.
  - intros j s' [Hne Hs]%lookup_delete_Some. eauto.
  - intros it Hin. apply lookup_delete_None. auto.
Qed.

Lemma Wf_step (st : state) (ev : event) : Wf st → Wf (step st ev).
Proof.
  intros HWf. destruct ev as [w arg now clk | i | i | i r | i | i clk]; simpl.
  - unfold enqueue. destruct (enqueue_priority arg) as [p|]; [|done].
    apply Wf_pump_loop. by apply Wf_push.
  - by apply Wf_cancel.
  - unfold run_reaction.
    destruct (slots st !! i) as [[it []]|] eqn:Hi; try done.
    destruct (run it); eapply Wf_set_phase; eauto.
  - unfold complete.
    destruct (slots st !! i) as [[it []]|] eqn:Hi; try done.
    eapply Wf_set_phase; eauto.
  - unfold deliver.
    destruct (slots st !! i) as [[it []]|] eqn:Hi; try done.
    eapply Wf_set_phase.
    + rewrite slots_settle. exact Hi.
    + eapply Wf_settle_slot; eauto.
  - unfold finally.
    destruct (slots st !! i) as [[it []]|] eqn:Hi; try done.
    apply Wf_pump_loop. eapply Wf_release; eauto.
Qed.

Lemma Wf_reachable (st0 st : state) : Wf st0 → reachable st0 st → Wf st.
Proof. intros H0. induction 1; auto using Wf_step. Qed.

Lemma reachable_exec (evs : list event) (st0 st : state) :
  reachable st0 st → reachable st0 (exec evs st).
Proof.
  revert st. induction evs as [|ev evs IH]; intros st Hr; [done|].
  simpl. apply IH. by constructor.
Qed.

Lemma reachable_trans (st0 st1 st2 : state) :
  reachable st0 st1 → reachable st1 st2 → reachable st0 st2.
Proof. intros H1. induction 1; [done | by constructor]. Qed.

(** The configuration never changes. *)
Lemma config_pump_loop (fuel : nat) (clk : nat → Z) (k : nat) (st : state) :
  concurrency (pump_loop fuel clk k st) = concurrency st
  ∧ agingMs (pump_loop fuel clk k st) = agingMs st.
Proof.
  apply (pump_loop_preserves
           (λ s, concurrency s = concurrency st ∧ agingMs s = agingMs st));
    done.
Qed.

Lemma config_step (st : state) (ev : event) :
  concurrency (step st ev) = concurrency st
  ∧ agingMs (step st ev) = agingMs st.
Proof.
  destruct ev as [w arg now clk | i | i | i r | i | i clk]; simpl.
  - unfold enqueue. destruct (enqueue_priority arg); [|done].
    apply (config_pump_loop _ _ _ (push _ st)).
  - unfold cancel, settle. by destruct (promises _ !! i) as [[|?]|].
  - unfold run_reaction.
    destruct (slots st !! i) as [[it []]|]; try done. by destruct (run it).
  - unfold complete. by destruct (slots st !! i) as [[it []]|].
  - unfold deliver. destruct (slots st !! i) as [[it []]|]; try done.
    simpl. unfold settle. by destruct (promises _ !! i) as [[|?]|].
  - unfold finally. destruct (slots st !! i) as [[it []]|]; try done.
    apply (config_pump_loop _ _ _ (State _ _ _ _ _ _ _ _)).
Qed.

Lemma config_reachable (st0 st : state) :
  reachable st0 st →
  concurrency st = concurrency st0 ∧ agingMs st = agingMs st0.
Proof.
  induction 1 as [|st ev _ [IH1 IH2]]; [done|].
  destruct (config_step st ev) as [-> ->]. done.
Qed.

(** ** History invariant *)

Lemma settlements_snoc (i : nat) (tr : list effect) (e : effect) :
  settlements i (tr ++ [e]) =
    settlements i tr ++ match settled_by i e with Some o => [o] | None => [] end.
Proof.
  unfold settlements. rewrite omap_app. simpl. by destruct (settled_by i e).
Qed.

Lemma Hist_initial (c a : Z) : Hist (initial c a).
Proof.
  split; simpl; try done;
    try (intros; match goal with H : _ ∈ [] |- _ =>
                   by apply elem_of_nil in H end).
Qed.

(** Case analysis on membership in a trace extended by one effect. *)
Ltac trace_cases H :=
  apply elem_of_app in H as [H | H%list_elem_of_singleton];
  [| try discriminate H; try (injection H as ?; subst)].

Create HintDb hist.
#[local] Hint Extern 1 (_ ∈ _ ++ _) => apply elem_of_app; left : hist.
#[local] Hint Extern 1 (?x ∈ _ ++ [?x]) =>
  apply elem_of_app; right; apply list_elem_of_singleton; reflexivity : hist.

Lemma Hist_drop (st : state) (n : nat) :
  Hist st → Hist (set_q (delete n (q st)) st).
Proof.
  intros [H1 H2 H3 H4 H5 H6 H7 H8]. split; simpl; try done.
  intros it e Hin%elem_of_delete_elem. auto.
Qed.

Lemma Hist_dispatch (st : state) (n : nat) (it : item) :
  q st !! n = Some it → Wf st → Hist st →
  Hist (dispatch it (set_q (delete n (q st)) st)).
Proof.
  intros Hit HWf [H1 H2 H3 H4 H5 H6 H7 H8].
  assert (it ∈ q st) as Hin by (eapply list_elem_of_lookup_2; eauto).
  split; simpl.
  - intros i. rewrite settlements_snoc. simpl. by rewrite app_nil_r.
  - intros e He. trace_cases He; [auto|]. subst e. simpl.
    by apply (wf_q_issued _ HWf).
  - intros it' e (m & Hm & Hlk)%elem_of_delete_lookup He Hid.
    trace_cases He.
    + apply H3; [|done..]. eapply list_elem_of_lookup_2; eauto.
    + subst e. simpl in Hid. exfalso. apply Hm.
      eapply ids_increasing_inj; eauto using wf_q_order.
  - intros i s [[<- <-] | [Hne Hs]]%lookup_insert_Some; eauto with hist.
  - intros i Hi. trace_cases Hi. eauto with hist.
  - intros i o Hi. trace_cases Hi. pose proof (H6 _ _ Hi). eauto with hist.
  - intros i it' o [[_ [=]] | [Hne Hs]]%lookup_insert_Some. eauto with hist.
  - intros i o Hp. destruct (H8 _ _ Hp); eauto with hist.
Qed.

Lemma Inv_pump_loop (fuel : nat) (clk : nat → Z) (k : nat) (st : state) :
  Wf st ∧ Hist st → Wf (pump_loop fuel clk k st) ∧ Hist (pump_loop fuel clk k st).
Proof.
  apply (pump_loop_preserves (λ s, Wf s ∧ Hist s)).
  - intros s n it _ _ _ [HW HH]. split; [by apply Wf_drop | by apply Hist_drop].
  - intros s n it Hlt Hit _ [HW HH].
    split; [by apply Wf_dispatch | by apply Hist_dispatch].
Qed.

Lemma Hist_push (st : state) (w : work) (p now : Z) :
  Wf st → Hist st → Hist (push (new_item st w p now) st).
Proof.
  intros HWf [H1 H2 H3 H4 H5 H6 H7 H8]. split; simpl; try done.
  - intros i. rewrite H1. destruct (decide (i = idSeq st)) as [->|Hne].
    + rewrite lookup_insert_eq, (wf_promise_issued _ HWf); [done | lia].
    + by rewrite lookup_insert_ne.
  - intros e He. specialize (H2 _ He). lia.
  - intros it e [Hin | ->%list_elem_of_singleton]%elem_of_app He Hid; [auto|].
    simpl in Hid. specialize (H2 _ He). lia.
  - intros i o [[<- [=]] | [Hne Hp]]%lookup_insert_Some. auto.
Qed.

Lemma Hist_cancel (i : nat) (st : state) : Wf st → Hist st → Hist (cancel i st).
Proof.
  intros HWf [H1 H2 H3 H4 H5 H6 H7 H8].
  assert (Hq : ∀ it', it' ∈ mark i <$> q st →
            ∃ it, it' = mark i it ∧ it ∈ q st)
    by (intros it'; apply list_elem_of_fmap).
  assert (Hs : ∀ j s', (mark_slot i <$> slots st) !! j = Some s' →
            ∃ s, mark_slot i s = s' ∧ slots st !! j = Some s)
    by (intros j s'; apply lookup_fmap_Some).
  unfold cancel, settle. cbn [promises mark_canceled].
  destruct (promises st !! i) as [[|o]|] eqn:Hp; split; simpl; try done;
    try (intros it' e (it & -> & Hin)%Hq; rewrite id_mark; auto; fail);
    try (intros j s' (s & <- & Hj)%Hs; eauto; fail);
    try (intros j it' o' (s & Heq & Hj)%Hs; destruct s as [it0 ph];
         injection Heq as _ ->; eauto; fail).
  - intros j. rewrite settlements_snoc, H1. simpl.
    destruct (decide (j = i)) as [->|Hne].
    + by rewrite decide_True, lookup_insert_eq, Hp.
    + rewrite decide_False, lookup_insert_ne, app_nil_r by done. done.
  - intros e He. trace_cases He; [auto|]. subst e. simpl.
    destruct (decide (i < idSeq st)%nat); [done|].
    rewrite (wf_promise_issued _ HWf) in Hp; [done | lia].
  - intros it' e (it & -> & Hin)%Hq He Hid. rewrite id_mark in *.
    trace_cases He; [auto|]. subst e. simpl in Hid. by subst i.
  - intros j s' (s & <- & Hj)%Hs. eauto with hist.
  - intros j Hj. trace_cases Hj. eauto with hist.
  - intros j o Hj. trace_cases Hj. pose proof (H6 _ _ Hj). eauto with hist.
  - intros j it' o' (s & Heq & Hj)%Hs. destruct s as [it0 ph].
    injection Heq as _ ->. eauto with hist.
  - intros j o [[<- [= <-]] | [Hne Hj]]%lookup_insert_Some; [by left|].
    destruct (H8 _ _ Hj); eauto with hist.
Qed.

(** A step of the promise chain of record [i] that logs the effect [e]. *)
Lemma Hist_set_phase (i : nat) (it : item) (ph ph' : phase) (e : effect)
    (st : state) :
  slots st !! i = Some (Slot it ph) →
  effect_id e = i → (∀ j, settled_by j e = None) →
  (∀ o, ph' = Completed o → e = Complete i o) →
  Wf st → Hist st → Hist (set_phase i it ph' [e] st).
Proof.
  intros Hi Hid Hns Hph HWf [H1 H2 H3 H4 H5 H6 H7 H8]. split; simpl.
  - intros j. by rewrite settlements_snoc, Hns, app_nil_r.
  - intros e' He. trace_cases He; [auto|]. subst e'. rewrite Hid.
    by apply (wf_slot_issued _ HWf _ _ Hi).
  - intros it' e' Hin He Hid'. trace_cases He; [auto|]. subst e'.
    pose proof (wf_q_not_slot _ HWf _ Hin) as Hn.
    rewrite <- Hid', Hid in Hn. congruence.
  - intros j s [[<- <-] | [Hne Hs]]%lookup_insert_Some; eauto with hist.
  - intros j Hj. trace_cases Hj; [eauto with hist|].
    subst e. simpl in Hid. subst j. eauto with hist.
  - intros j o Hj. trace_cases Hj.
    + pose proof (H6 _ _ Hj). eauto with hist.
    + subst e. simpl in Hid. subst j. eauto with hist.
  - intros j it' o [[<- [= <- ->]] | [Hne Hs]]%lookup_insert_Some.
    + rewrite (Hph o eq_refl). eauto with hist.
    + eauto with hist.
  - intros j o Hp. destruct (H8 _ _ Hp); eauto with hist.
Qed.

Lemma Hist_set_phase_silent (i : nat) (it : item) (ph ph' : phase)
    (st : state) :
  slots st !! i = Some (Slot it ph) → (∀ o, ph' ≠ Completed o) →
  Hist st → Hist (set_phase i it ph' [] st).
Proof.
  intros Hi Hph [H1 H2 H3 H4 H5 H6 H7 H8]. unfold set_phase.
  rewrite app_nil_r. split; simpl; try done.
  - intros j s [[<- <-] | [Hne Hs]]%lookup_insert_Some; eauto.
  - intros j it' o [[<- [= <- ->]] | [Hne Hs]]%lookup_insert_Some; [|eauto].
    by destruct (Hph o).
Qed.

Lemma Hist_settle_slot (i : nat) (it : item) (o : outcome) (st : state) :
  slots st !! i = Some (Slot it (Completed o)) →
  Wf st → Hist st → Hist (settle i o st).
Proof.
  intros Hi HWf [H1 H2 H3 H4 H5 H6 H7 H8]. unfold settle.
  destruct (promises st !! i) as [[|o']|] eqn:Hp; split; simpl; try done.
  - intros j. rewrite settlements_snoc, H1. simpl.
    destruct (decide (j = i)) as [->|Hne].
    + by rewrite decide_True, lookup_insert_eq, Hp.
    + rewrite decide_False, lookup_insert_ne, app_nil_r by done. done.
  - intros e He. trace_cases He; [auto|]. subst e. simpl.
    by apply (wf_slot_issued _ HWf _ _ Hi).
  - intros it' e Hin He Hid. trace_cases He; [auto|]. subst e. simpl in Hid.
    pose proof (wf_q_not_slot _ HWf _ Hin) as Hn. congruence.
  - intros j s Hj. eauto with hist.
  - intros j Hj. trace_cases Hj. eauto with hist.
  - intros j o0 Hj. trace_cases Hj. pose proof (H6 _ _ Hj). eauto with hist.
  - intros j it' o0 Hj. eauto with hist.
  - intros j o0 [[<- [= <-]] | [Hne Hj]]%lookup_insert_Some.
    + right. eauto with hist.
    + destruct (H8 _ _ Hj); eauto with hist.
Qed.

Lemma Hist_release (i : nat) (st : state) :
  Hist st →
  Hist (State (concurrency st) (agingMs st) (running st - 1) (idSeq st)
              (q st) (delete i (slots st)) (promises st) (trace st)).
Proof.
  intros [H1 H2 H3 H4 H5 H6 H7 H8]. split; simpl; try done.
  - intros j s [Hne Hs]%lookup_delete_Some. eauto.
  - intros j it o [Hne Hs]%lookup_delete_Some. eauto.
Qed.

Lemma Inv_initial (c a : Z) : Inv (initial c a).
Proof. split; [apply Wf_initial | apply Hist_initial]. Qed.

Lemma Inv_step (st : state) (ev : event) : Inv st → Inv (step st ev).
Proof.
  intros [HWf HH]. split; [by apply Wf_step|].
  destruct ev as [w arg now clk | i | i | i r | i | i clk]; simpl.
  - unfold enqueue. destruct (enqueue_priority arg) as [p|]; [|done].
    apply Inv_pump_loop. split; [by apply Wf_push | by apply Hist_push].
  - by apply Hist_cancel.
  - unfold run_reaction.
    destruct (slots st !! i) as [[it []]|] eqn:Hi; try done.
    destruct (run it); eapply Hist_set_phase; eauto; try done;
      try (by intros o [= <-]).
  - unfold complete.
    destruct (slots st !! i) as [[it []]|] eqn:Hi; try done.
    eapply Hist_set_phase; eauto; try done; try (by intros o [= <-]).
  - unfold deliver.
    destruct (slots st !! i) as [[it []]|] eqn:Hi; try done.
    eapply Hist_set_phase_silent.
    + rewrite slots_settle. exact Hi.
    + done.
    + eapply Hist_settle_slot; eauto.
  - unfold finally.
    destruct (slots st !! i) as [[it []]|] eqn:Hi; try done.
    apply Inv_pump_loop. split; [eapply Wf_release; eauto | by apply Hist_release].
Qed.

Lemma Inv_reachable (st0 st : state) : Inv st0 → reachable st0 st → Inv st.
Proof. intros H0. induction 1; auto using Inv_step. Qed.

Lemma Inv_exec (evs : list event) (st : state) : Inv st → Inv (exec evs st).
Proof.
  intros H. eapply Inv_reachable; [exact H|]. apply reachable_exec. constructor.
Qed.

Lemma createTaskQueue_initial (arg : jsarg queue_opts) (st0 : state) :
  createTaskQueue arg = Normal st0 → ∃ c a, st0 = initial c a.
Proof. destruct arg as [| |o]; intros [= <-]; eauto. Qed.

Lemma Inv_created (arg : jsarg queue_opts) (st0 : state) :
  createTaskQueue arg = Normal st0 → Inv st0.
Proof. intros (c & a & ->)%createTaskQueue_initial. apply Inv_initial. Qed.

(** * Claims *)

(** C3. For a record of priority [p] that has waited [w >= 0] with an aging
    window [a > 0], the score is [max 0 (p - k)] where [k] is the floor of
    [w / a], i.e. the integer with [k * a <= w < (k + 1) * a].  With a window
    of 150, a low-priority (2) record that has waited 300 has score 0, the
    score of a high-priority (0) record submitted just now. *)
Theorem score_is_aged_priority (a p t w k : Z) (i : nat) (u : work) (c : bool) :
  0 ≤ w → 0 < a → k * a ≤ w < (k + 1) * a →
  score a (Item i p t u c) (t + w) = Z.max 0 (p - k)
  ∧ score 150 (Item i Priority.low t u c) (t + 300) = 0
  ∧ score 150 (Item i Priority.high (t + 300) u c) (t + 300) = 0.
Proof.
  intros Hw Ha Hk. split_and!.
  - unfold score. simpl. replace (t + w - t) with w by lia.
    by rewrite (floor_unique a w k Hk).
  - unfold score. simpl. replace (t + 300 - t) with 300 by lia. reflexivity.
  - unfold score. simpl. rewrite Z.sub_diag. reflexivity.
Qed.

Lemma score_is_aged_priority_witness :
  score 150 (Item 1 2 1000 Callable false) (1000 + 300) = Z.max 0 (2 - 2)
  ∧ score 150 (Item 1 Priority.low 1000 Callable false) (1000 + 300) = 0
  ∧ score 150 (Item 1 Priority.high (1000 + 300) Callable false)
      (1000 + 300) = 0.
Proof.
  apply (score_is_aged_priority 150 2 1000 300 2 1%nat Callable false); lia.
Defined.

(** C9. For a fixed record and aging window [a > 0] the score does not
    increase as time passes, and it is never below 0. *)
Theorem score_monotone_and_floored (a p t w1 w2 : Z) (i : nat) (u : work)
    (c : bool) :
  0 < a → w1 ≤ w2 →
  score a (Item i p t u c) (t + w2) ≤ score a (Item i p t u c) (t + w1)
  ∧ 0 ≤ score a (Item i p t u c) (t + w2).
Proof.
  intros Ha Hw. split.
  - apply score_antitone; lia.
  - apply score_nonneg.
Qed.

Lemma score_monotone_and_floored_witness :
  score 150 (Item 1 2 0 Callable false) (0 + 300)
    ≤ score 150 (Item 1 2 0 Callable false) (0 + 100)
  ∧ 0 ≤ score 150 (Item 1 2 0 Callable false) (0 + 300).
Proof.
  apply (score_monotone_and_floored 150 2 0 100 300 1%nat Callable false); lia.
Defined.


(** C1. In every state reached from a queue built with a limit [>= 0], by
    any sequence of submissions, cancellations and promise reactions,
    [running] is the number of dispatched records whose chain has not
    finished, and it does not exceed [concurrency]. *)
Theorem running_never_exceeds_concurrency (arg : jsarg queue_opts)
    (st0 : state) (evs : list event) :
  createTaskQueue arg = Normal st0 → 0 ≤ concurrency st0 →
  running (exec evs st0) = Z.of_nat (size (slots (exec evs st0)))
  ∧ running (exec evs st0) ≤ concurrency st0
  ∧ concurrency (exec evs st0) = concurrency st0.
Proof.
  intros Hc Hpos.
  pose proof (Inv_exec evs st0 (Inv_created _ _ Hc)) as [HWf _].
  destruct (config_reachable st0 (exec evs st0)) as [Hcc _].
  { apply reachable_exec. constructor. }
  split_and!; [apply (wf_running _ HWf) | | done].
  pose proof (wf_budget _ HWf). lia.
Qed.

Lemma running_never_exceeds_concurrency_witness :
  running (exec demo_events demo_queue)
    = Z.of_nat (size (slots (exec demo_events demo_queue)))
  ∧ running (exec demo_events demo_queue) ≤ concurrency demo_queue
  ∧ concurrency (exec demo_events demo_queue) = concurrency demo_queue.
Proof.
  apply (running_never_exceeds_concurrency
           (Obj (QueueOpts (Some 2) (Some 150))) demo_queue demo_events).
  - reflexivity.
  - vm_compute. discriminate.
Defined.

(** ** Settlement *)

Lemma promises_pump_loop (fuel : nat) (clk : nat → Z) (k : nat) (st : state) :
  promises (pump_loop fuel clk k st) = promises st.
Proof.
  by apply (pump_loop_preserves (λ s, promises s = promises st)).
Qed.

Lemma settle_stable (i j : nat) (o o' : outcome) (st : state) :
  promises st !! i = Some (Settled o) →
  promises (settle j o' st) !! i = Some (Settled o).
Proof.
  intros Hi. unfold settle.
  destruct (promises st !! j) as [[|?]|] eqn:Hj; simpl; try done.
  rewrite lookup_insert_ne; [done | congruence].
Qed.

(** A settled promise is never touched again. *)
Lemma settled_stable_step (st : state) (ev : event) (i : nat) (o : outcome) :
  Wf st → observed i st = Some (Settled o) →
  observed i (step st ev) = Some (Settled o).
Proof.
  unfold observed. intros HWf Hi.
  destruct ev as [w arg now clk | j | j | j r | j | j clk]; simpl.
  - unfold enqueue. destruct (enqueue_priority arg) as [p|]; [|done].
    simpl. unfold pump. rewrite promises_pump_loop. simpl.
    rewrite lookup_insert_ne; [done|]. intros Heq.
    rewrite <- Heq, (wf_promise_issued _ HWf) in Hi; [done | lia].
  - by apply settle_stable.
  - unfold run_reaction.
    destruct (slots st !! j) as [[it []]|]; try done. by destruct (run it).
  - unfold complete. by destruct (slots st !! j) as [[it []]|].
  - unfold deliver. destruct (slots st !! j) as [[it []]|]; try done.
    simpl. by apply settle_stable.
  - unfold finally. destruct (slots st !! j) as [[it []]|]; try done.
    unfold pump. by rewrite promises_pump_loop.
Qed.

Lemma settled_stable_exec (evs : list event) (st : state) (i : nat)
    (o : outcome) :
  Wf st → observed i st = Some (Settled o) →
  observed i (exec evs st) = Some (Settled o).
Proof.
  revert st. induction evs as [|ev evs IH]; intros st HWf Hi; [done|].
  simpl. apply IH; [by apply Wf_step | by apply settled_stable_step].
Qed.


Lemma idSeq_settle (j : nat) (o : outcome) (st : state) :
  idSeq (settle j o st) = idSeq st.
Proof. unfold settle. by destruct (promises st !! j) as [[|?]|]. Qed.





Lemma cancel_pending (i : nat) (st : state) :
  observed i st = Some Pending →
  observed i (cancel i st) = Some (Settled (Rejected CancelError)).
Proof.
  unfold observed, cancel, settle. simpl. intros ->. simpl.
  by rewrite lookup_insert_eq.
Qed.

(** What the history and the promise store owe to the events of a run. *)











(** The life of one task on the demo queue, from [enqueue] to the settled
    promise: fulfilled with the value returned, rejected with the reason of
    the failure, and rejected with the cancellation error when [cancel] comes
    first. *)
Example task_life :
  observed 1 (exec [ EvEnqueue Callable Undefined 0 noon; EvRun 1;
                     EvComplete 1 (Returns 7); EvDeliver 1 ] demo_queue)
    = Some (Settled (Fulfilled 7))
  ∧ observed 1 (exec [ EvEnqueue Callable Undefined 0 noon; EvRun 1;
                       EvComplete 1 (Throws (Failure 9)); EvDeliver 1 ]
                     demo_queue)
      = Some (Settled (Rejected (Failure 9)))
  ∧ observed 1 (exec [ EvEnqueue Callable Undefined 0 noon; EvRun 1;
                       EvCancel 1; EvComplete 1 (Returns 7); EvDeliver 1 ]
                     demo_queue)
      = Some (Settled (Rejected CancelError))
  ∧ trace (exec [ EvEnqueue Callable Undefined 0 noon; EvRun 1;
                  EvCancel 1; EvComplete 1 (Returns 7); EvDeliver 1 ]
                demo_queue)
      = [ Dispatch 1; Invoke 1; Settle 1 (Rejected CancelError);
          Complete 1 (Fulfilled 7) ].
Proof. split_and!; vm_compute; reflexivity. Qed.

Example demo_outcome :
  observed 1 (exec demo_events demo_queue) = Some (Settled (Fulfilled 11))
  ∧ stats (exec demo_events demo_queue) = (1, 2).
Proof. split; vm_compute; reflexivity. Qed.

(** ** Cancellation before dispatch *)

Lemma Shelved_pump_loop (i : nat) (fuel : nat) (clk : nat → Z) (k : nat)
    (st : state) :
  Shelved i st → Shelved i (pump_loop fuel clk k st).
Proof.
  apply (pump_loop_preserves (Shelved i)).
  - intros s n it _ _ _ [H1 H2 H3 H4 H5 H6]. split; simpl; try done.
    intros it' Hin%elem_of_delete_elem. auto.
  - intros s n it _ Hit Hc [H1 H2 H3 H4 H5 H6].
    assert (id it ≠ i) as Hne.
    { intros Hid. apply list_elem_of_lookup_2 in Hit.
      rewrite (H1 _ Hit Hid) in Hc. done. }
    split; simpl; try done.
    + intros it' Hin%elem_of_delete_elem. auto.
    + by rewrite lookup_insert_ne.
    + intros Hin. trace_cases Hin; [done | congruence].
    + intros Hin. trace_cases Hin. done.
Qed.

Lemma Shelved_settle (i j : nat) (o : outcome) (st : state) :
  Shelved i st → Shelved i (settle j o st).
Proof.
  intros [H1 H2 H3 H4 H5 H6]. unfold settle, observed in *.
  destruct (promises st !! j) as [[|?]|] eqn:Hp; try done.
  assert (j ≠ i) by congruence.
  split; simpl; try done.
  - intros Hin. trace_cases Hin. done.
  - intros Hin. trace_cases Hin. done.
  - unfold observed. simpl. by rewrite lookup_insert_ne.
Qed.

Lemma Shelved_set_phase (i j : nat) (it : item) (ph : phase) (e : list effect)
    (st : state) :
  is_Some (slots st !! j) → Dispatch i ∉ e → Invoke i ∉ e →
  Shelved i st → Shelved i (set_phase j it ph e st).
Proof.
  intros Hj Hd Hi [H1 H2 H3 H4 H5 H6].
  assert (j ≠ i) by (intros ->; rewrite H2 in Hj; by destruct Hj).
  split; simpl; try done.
  - by rewrite lookup_insert_ne.
  - intros [?|?]%elem_of_app; done.
  - intros [?|?]%elem_of_app; done.
Qed.

Lemma Shelved_step (i : nat) (st : state) (ev : event) :
  Shelved i st → Shelved i (step st ev).
Proof.
  intros HS. destruct ev as [w arg now clk | j | j | j r | j | j clk]; simpl.
  - unfold enqueue. destruct (enqueue_priority arg) as [p|]; [|done].
    apply Shelved_pump_loop. destruct HS as [H1 H2 H3 H4 H5 H6].
    split; simpl; try done.
    + intros it [Hin | ->%list_elem_of_singleton]%elem_of_app Hid; [auto|].
      simpl in Hid. lia.
    + lia.
    + unfold observed in *. simpl. rewrite lookup_insert_ne; [done | lia].
  - apply Shelved_settle. destruct HS as [H1 H2 H3 H4 H5 H6].
    split; simpl; try done.
    + intros it' (it & -> & Hin)%list_elem_of_fmap Hid.
      rewrite id_mark in Hid. rewrite canceled_mark. case_decide; auto.
    + by rewrite lookup_fmap, H2.
  - unfold run_reaction.
    destruct (slots st !! j) as [[it []]|] eqn:Hj; try done.
    assert (j ≠ i) by (intros ->; rewrite (sh_slot _ _ HS) in Hj; done).
    destruct (run it); apply Shelved_set_phase; eauto;
      intros ?%list_elem_of_singleton; congruence.
  - unfold complete.
    destruct (slots st !! j) as [[it []]|] eqn:Hj; try done.
    apply Shelved_set_phase; eauto; intros ?%list_elem_of_singleton; done.
  - unfold deliver.
    destruct (slots st !! j) as [[it []]|] eqn:Hj; try done.
    apply Shelved_set_phase.
    + rewrite slots_settle. eauto.
    + by intros ?%elem_of_nil.
    + by intros ?%elem_of_nil.
    + by apply Shelved_settle.
  - unfold finally.
    destruct (slots st !! j) as [[it []]|] eqn:Hj; try done.
    apply Shelved_pump_loop. destruct HS as [H1 H2 H3 H4 H5 H6].
    split; simpl; try done. by apply lookup_delete_None; right.
Qed.

Lemma Shelved_exec (i : nat) (evs : list event) (st : state) :
  Shelved i st → Shelved i (exec evs st).
Proof.
  revert st. induction evs as [|ev evs IH]; intros st HS; [done|].
  simpl. apply IH. by apply Shelved_step.
Qed.

Lemma running_cancel (i : nat) (st : state) :
  running (cancel i st) = running st.
Proof. unfold cancel, settle. simpl. by destruct (_ !! i) as [[|?]|]. Qed.

Lemma trace_cancel (i : nat) (st : state) :
  trace (cancel i st) = trace st
  ∨ trace (cancel i st) = trace st ++ [Settle i (Rejected CancelError)].
Proof.
  unfold cancel, settle. simpl. destruct (_ !! i) as [[|?]|]; auto.
Qed.

(** Canceling a queued record shelves it. *)
Lemma cancel_queued_Shelved (st : state) (it : item) :
  Inv st → it ∈ q st → Shelved (id it) (cancel (id it) st).
Proof.
  intros [HWf HH] Hin.
  assert (Hnd : ∀ e, e ∈ trace st → effect_id e = id it →
            e = Settle (id it) (Rejected CancelError))
    by (intros e He Hid; eapply hist_q; eauto).
  assert (Hout : observed (id it) (cancel (id it) st)
                 = Some (Settled (Rejected CancelError))).
  { pose proof (wf_q_promise _ HWf _ Hin) as Hp.
    unfold observed, cancel, settle. simpl.
    destruct (canceled it); rewrite Hp; simpl;
      [exact Hp | by rewrite lookup_insert_eq]. }
  split.
  - intros it' Hin' Hid.
    assert (it' ∈ mark (id it) <$> q st) as (x & -> & Hx)%list_elem_of_fmap.
    { unfold cancel, settle in Hin'. simpl in Hin'.
      by destruct (_ !! id it) as [[|?]|]. }
    rewrite canceled_mark. rewrite id_mark in Hid. by rewrite decide_True.
  - unfold cancel. rewrite slots_settle. simpl.
    by rewrite lookup_fmap, (wf_q_not_slot _ HWf _ Hin).
  - intros He. destruct (trace_cancel (id it) st) as [Ht | Ht];
      rewrite Ht in He; [|trace_cases He];
      by specialize (Hnd _ He eq_refl).
  - intros He. destruct (trace_cancel (id it) st) as [Ht | Ht];
      rewrite Ht in He; [|trace_cases He];
      by specialize (Hnd _ He eq_refl).
  - unfold cancel, settle. simpl.
    destruct (_ !! id it) as [[|?]|]; simpl; by apply (wf_q_issued _ HWf).
  - exact Hout.
Qed.

(** C7. A record canceled while it is still in the queue (so neither
    dispatched nor called yet) is settled as canceled by the [cancel] call
    itself, which leaves [running] alone; afterwards, whatever happens, it is
    never dispatched (no [running += 1] for it, no slot), its work unit is
    never called, and its outcome stays canceled. *)
Theorem cancel_before_dispatch (arg : jsarg queue_opts) (st0 : state)
    (evs0 evs : list event) (it : item) :
  createTaskQueue arg = Normal st0 → it ∈ q (exec evs0 st0) →
  ((Dispatch (id it) ∉ trace (exec evs0 st0))
   ∧ (Invoke (id it) ∉ trace (exec evs0 st0)))
  ∧ observed (id it) (cancel (id it) (exec evs0 st0))
      = Some (Settled (Rejected CancelError))
  ∧ (canceled it = false →
       trace (cancel (id it) (exec evs0 st0))
         = trace (exec evs0 st0) ++ [Settle (id it) (Rejected CancelError)])
  ∧ running (cancel (id it) (exec evs0 st0)) = running (exec evs0 st0)
  ∧ (Dispatch (id it) ∉ trace (exec evs (cancel (id it) (exec evs0 st0))))
  ∧ (Invoke (id it) ∉ trace (exec evs (cancel (id it) (exec evs0 st0))))
  ∧ slots (exec evs (cancel (id it) (exec evs0 st0))) !! id it = None
  ∧ observed (id it) (exec evs (cancel (id it) (exec evs0 st0)))
      = Some (Settled (Rejected CancelError)).
Proof.
  intros Hc Hin.
  pose proof (Inv_exec evs0 st0 (Inv_created _ _ Hc)) as HI.
  set (st := exec evs0 st0) in *.
  pose proof (cancel_queued_Shelved st it HI Hin) as HS.
  pose proof (Shelved_exec (id it) evs _ HS) as HS'.
  destruct HI as [HWf HH]. split_and!.
  - intros He. by specialize (hist_q _ HH _ _ Hin He eq_refl).
  - intros He. by specialize (hist_q _ HH _ _ Hin He eq_refl).
  - apply (sh_outcome _ _ HS).
  - intros Hf. pose proof (wf_q_promise _ HWf _ Hin) as Hp.
    rewrite Hf in Hp. unfold cancel, settle. simpl. by rewrite Hp.
  - apply running_cancel.
  - apply (sh_dispatch _ _ HS').
  - apply (sh_invoke _ _ HS').
  - apply (sh_slot _ _ HS').
  - apply (sh_outcome _ _ HS').
Qed.

Lemma cancel_before_dispatch_witness :
  ((Dispatch 2 ∉ trace (exec two_submitted one_at_a_time))
   ∧ (Invoke 2 ∉ trace (exec two_submitted one_at_a_time)))
  ∧ observed 2 (cancel 2 (exec two_submitted one_at_a_time))
      = Some (Settled (Rejected CancelError))
  ∧ (false = false →
       trace (cancel 2 (exec two_submitted one_at_a_time))
         = trace (exec two_submitted one_at_a_time)
             ++ [Settle 2 (Rejected CancelError)])
  ∧ running (cancel 2 (exec two_submitted one_at_a_time))
      = running (exec two_submitted one_at_a_time)
  ∧ (Dispatch 2 ∉ trace (exec first_finishes
                           (cancel 2 (exec two_submitted one_at_a_time))))
  ∧ (Invoke 2 ∉ trace (exec first_finishes
                         (cancel 2 (exec two_submitted one_at_a_time))))
  ∧ slots (exec first_finishes
             (cancel 2 (exec two_submitted one_at_a_time))) !! 2%nat = None
  ∧ observed 2 (exec first_finishes
                  (cancel 2 (exec two_submitted one_at_a_time)))
      = Some (Settled (Rejected CancelError)).
Proof.
  apply (cancel_before_dispatch (Obj (QueueOpts (Some 1) (Some 150)))
           one_at_a_time two_submitted first_finishes second_record).
  - reflexivity.
  - vm_compute. apply list_elem_of_here.
Defined.

Example canceled_record_is_dropped :
  q (exec first_finishes (cancel 2 (exec two_submitted one_at_a_time))) = []
  ∧ stats (exec first_finishes (cancel 2 (exec two_submitted one_at_a_time)))
      = (0, 0)
  ∧ trace (exec first_finishes (cancel 2 (exec two_submitted one_at_a_time)))
      = [ Dispatch 1; Settle 2 (Rejected CancelError); Invoke 1;
          Complete 1 (Fulfilled 7); Settle 1 (Fulfilled 7) ].
Proof. split_and!; vm_compute; reflexivity. Qed.

(** ** What the queue holds *)





(** ** Cancellation of a dispatched or settled task *)

Lemma mark_canceled_idem (i : nat) (st : state) :
  mark_canceled i (mark_canceled i st) = mark_canceled i st.
Proof.
  unfold mark_canceled. simpl. f_equal.
  - rewrite <- list_fmap_compose. apply list_fmap_ext.
    intros _ it _. apply mark_idem.
  - rewrite <- map_fmap_compose. apply map_fmap_ext.
    intros _ [it ph] _. unfold mark_slot. simpl. by rewrite mark_idem.
Qed.

Lemma cancel_idem (i : nat) (st : state) :
  cancel i (cancel i st) = cancel i st.
Proof.
  assert (Hm : ∀ s, cancel i s =
            match promises s !! i with
            | Some Pending =>
                State (concurrency s) (agingMs s) (running s) (idSeq s)
                      (mark i <$> q s) (mark_slot i <$> slots s)
                      (<[i := Settled (Rejected CancelError)]> (promises s))
                      (trace s ++ [Settle i (Rejected CancelError)])
            | _ => mark_canceled i s
            end).
  { intros s. unfold cancel, settle. simpl.
    by destruct (promises s !! i) as [[|?]|]. }
  rewrite (Hm st). destruct (promises st !! i) as [[|o]|] eqn:Hp.
  - rewrite Hm. simpl. rewrite lookup_insert_eq.
    unfold mark_canceled. simpl. f_equal.
    + rewrite <- list_fmap_compose. apply list_fmap_ext.
      intros _ it _. apply mark_idem.
    + rewrite <- map_fmap_compose. apply map_fmap_ext.
      intros _ [it ph] _. unfold mark_slot. simpl. by rewrite mark_idem.
  - rewrite Hm. simpl. rewrite Hp. apply mark_canceled_idem.
  - rewrite Hm. simpl. rewrite Hp. apply mark_canceled_idem.
Qed.

Lemma slots_cancel (i : nat) (st : state) :
  slots (cancel i st) = mark_slot i <$> slots st.
Proof. unfold cancel. by rewrite slots_settle. Qed.

(** C5, as the code has it.  [cancel] is idempotent, and on a task that is
    already settled it leaves the outcome as it is.  On a dispatched task
    whose promise is still pending, [cancel] rejects the promise with the
    cancellation error at once and for good, whatever the work unit produces
    later; the record keeps its slot and its place in the promise chain, and
    [running] is unchanged. *)
Theorem cancel_idempotent_and_final (arg : jsarg queue_opts) (st0 : state)
    (evs0 evs : list event) (i : nat) :
  createTaskQueue arg = Normal st0 →
  cancel i (cancel i (exec evs0 st0)) = cancel i (exec evs0 st0)
  ∧ (∀ o, observed i (exec evs0 st0) = Some (Settled o) →
       observed i (cancel i (exec evs0 st0)) = Some (Settled o)
       ∧ observed i (exec evs (cancel i (exec evs0 st0))) = Some (Settled o))
  ∧ (∀ s, slots (exec evs0 st0) !! i = Some s →
       observed i (exec evs0 st0) = Some Pending →
       observed i (cancel i (exec evs0 st0))
         = Some (Settled (Rejected CancelError))
       ∧ observed i (exec evs (cancel i (exec evs0 st0)))
           = Some (Settled (Rejected CancelError))
       ∧ running (cancel i (exec evs0 st0)) = running (exec evs0 st0)
       ∧ slot_phase <$> slots (cancel i (exec evs0 st0)) !! i
           = Some (slot_phase s)).
Proof.
  intros Hc.
  pose proof (Inv_exec evs0 st0 (Inv_created _ _ Hc)) as [HWf HH].
  set (st := exec evs0 st0) in *.
  assert (HWf' : Wf (cancel i st)) by (by apply Wf_cancel).
  split_and!.
  - apply cancel_idem.
  - intros o Ho.
    assert (observed i (cancel i st) = Some (Settled o)) as Ho'
      by (by apply (settled_stable_step st (EvCancel i))).
    split; [done | by apply settled_stable_exec].
  - intros s Hs Hp. pose proof (cancel_pending i st Hp) as Ho. split_and!.
    + done.
    + by apply settled_stable_exec.
    + apply running_cancel.
    + by rewrite slots_cancel, lookup_fmap, Hs.
Qed.

Lemma cancel_idempotent_and_final_witness :
  cancel 1 (cancel 1 (exec one_running demo_queue))
    = cancel 1 (exec one_running demo_queue)
  ∧ (∀ o, observed 1 (exec one_running demo_queue) = Some (Settled o) →
       observed 1 (cancel 1 (exec one_running demo_queue)) = Some (Settled o)
       ∧ observed 1 (exec work_returns (cancel 1 (exec one_running demo_queue)))
           = Some (Settled o))
  ∧ (∀ s, slots (exec one_running demo_queue) !! 1%nat = Some s →
       observed 1 (exec one_running demo_queue) = Some Pending →
       observed 1 (cancel 1 (exec one_running demo_queue))
         = Some (Settled (Rejected CancelError))
       ∧ observed 1 (exec work_returns
                       (cancel 1 (exec one_running demo_queue)))
           = Some (Settled (Rejected CancelError))
       ∧ running (cancel 1 (exec one_running demo_queue))
           = running (exec one_running demo_queue)
       ∧ slot_phase <$> slots (cancel 1 (exec one_running demo_queue)) !! 1%nat
           = Some (slot_phase s)).
Proof.
  apply (cancel_idempotent_and_final (Obj (QueueOpts (Some 2) (Some 150)))
           demo_queue one_running work_returns 1%nat).
  reflexivity.
Defined.

(** C5 as stated fails: task 1 is running (its work unit was called and has
    not finished).  Without [cancel] it is fulfilled with the value the work
    unit returns; with a [cancel] before the work unit finishes, the observed
    outcome is the cancellation error instead. *)
Lemma cancel_changes_outcome_of_running_task :
  createTaskQueue (Obj (QueueOpts (Some 2) (Some 150))) = Normal demo_queue
  ∧ slots (exec one_running demo_queue) !! 1%nat
      = Some (Slot (Item 1 1 0 Callable false) InFlight)
  ∧ observed 1 (exec one_running demo_queue) = Some Pending
  ∧ observed 1 (exec work_returns (exec one_running demo_queue))
      = Some (Settled (Fulfilled 7))
  ∧ observed 1 (exec (EvCancel 1 :: work_returns) (exec one_running demo_queue))
      = Some (Settled (Rejected CancelError))
  ∧ observed 1 (exec (EvCancel 1 :: work_returns) (exec one_running demo_queue))
      ≠ observed 1 (exec work_returns (exec one_running demo_queue)).
Proof. split_and!; try (vm_compute; reflexivity). vm_compute. discriminate. Qed.

(** ** Invalid configuration and work units *)

(** With a limit that is not positive nothing is ever dispatched. *)
Lemma no_budget_step (st : state) (ev : event) :
  concurrency st ≤ 0 → running st = 0 → slots st = ∅ →
  concurrency (step st ev) ≤ 0 ∧ running (step st ev) = 0
  ∧ slots (step st ev) = ∅.
Proof.
  intros Hc Hr Hs.
  destruct ev as [w arg now clk | j | j | j r | j | j clk]; simpl.
  - unfold enqueue. destruct (enqueue_priority arg) as [p|]; [|done].
    simpl. unfold pump. rewrite pump_loop_full by (simpl; lia). done.
  - unfold cancel. rewrite slots_settle. unfold settle. simpl.
    rewrite Hs, fmap_empty. by destruct (_ !! j) as [[|?]|].
  - unfold run_reaction. by rewrite Hs, lookup_empty.
  - unfold complete. by rewrite Hs, lookup_empty.
  - unfold deliver. by rewrite Hs, lookup_empty.
  - unfold finally. by rewrite Hs, lookup_empty.
Qed.

Lemma no_budget_exec (evs : list event) (st : state) :
  concurrency st ≤ 0 → running st = 0 → slots st = ∅ →
  running (exec evs st) = 0 ∧ slots (exec evs st) = ∅.
Proof.
  revert st. induction evs as [|ev evs IH]; intros st Hc Hr Hs; [done|].
  simpl. destruct (no_budget_step st ev Hc Hr Hs) as (? & ? & ?). by apply IH.
Qed.

Lemma elem_of_delete_other {A} (l : list A) (n : nat) (x y : A) :
  x ∈ l → l !! n = Some y → x ≠ y → x ∈ delete n l.
Proof.
  intros [m Hm]%list_elem_of_lookup_1 Hn Hne.
  destruct (Nat.lt_trichotomy m n) as [Hlt | [-> | Hlt]].
  - apply (list_elem_of_lookup_2 _ m). by rewrite list_lookup_delete_lt.
  - congruence.
  - destruct m as [|m]; [lia|]. apply (list_elem_of_lookup_2 _ m).
    rewrite list_lookup_delete_ge by lia. done.
Qed.

Lemma queued_or_scheduled_pump_loop (it : item) (fuel : nat) (clk : nat → Z)
    (k : nat) (st : state) :
  canceled it = false → Wf st → queued_or_scheduled it st →
  queued_or_scheduled it (pump_loop fuel clk k st).
Proof.
  intros Hc HWf Hq.
  apply (pump_loop_preserves (λ s, Wf s ∧ queued_or_scheduled it s));
    [| |done].
  - intros s n it' _ Hit' Hc' [HW [Hin | Hs]].
    + split; [by apply Wf_drop|]. left. simpl.
      eapply elem_of_delete_other; eauto. congruence.
    + split; [by apply Wf_drop|]. by right.
  - intros s n it' Hlt Hit' Hc' [HW [Hin | Hs]].
    + split; [by apply Wf_dispatch|].
      destruct (decide (it = it')) as [<- | Hne].
      * right. simpl. by rewrite lookup_insert_eq.
      * left. simpl. eapply elem_of_delete_other; eauto.
    + split; [by apply Wf_dispatch|]. right. simpl.
      rewrite lookup_insert_ne; [done|]. intros Heq.
      apply list_elem_of_lookup_2 in Hit'.
      pose proof (wf_q_not_slot _ HW _ Hit') as Hn. congruence.
Qed.

Lemma type_error_later (st : state) (i : nat) (it : item) :
  slots st !! i = Some (Slot it Scheduled) → run it = NotCallable →
  trace (step st (EvRun i)) = trace st ++ [Complete i (Rejected TypeError)]
  ∧ (observed i st = Some Pending →
       observed i (exec [EvRun i; EvDeliver i] st)
         = Some (Settled (Rejected TypeError))).
Proof.
  intros Hs Hr. simpl. unfold run_reaction. rewrite Hs, Hr. split; [done|].
  intros Hp. unfold deliver. simpl. rewrite lookup_insert_eq.
  unfold observed, settle in *. simpl. rewrite Hp. simpl.
  by rewrite lookup_insert_eq.
Qed.

(** C8, as the code has it.  Neither call validates its arguments.
    [createTaskQueue] returns a queue for every integer limit, and with a
    limit [<= 0] that queue never dispatches anything.  [enqueue] with a work
    unit that cannot be called returns a handle like any other submission
    (only a [null] options argument makes it throw): the record is pushed on
    the queue and is then either still queued or already dispatched.  The
    failure shows up later: the reaction that should call the work unit
    completes with a [TypeError] without a call, and the pending promise is
    then rejected with that [TypeError]. *)
Theorem invalid_input_fails_late (c : Z) (a : option Z) (evs : list event)
    (arg : jsarg enqueue_opts) (now : Z) (clk : nat → Z) :
  arg ≠ Null →
  createTaskQueue (Obj (QueueOpts (Some c) a)) = Normal (initial c (default 200 a))
  ∧ (c ≤ 0 →
       running (exec evs (initial c (default 200 a))) = 0
       ∧ slots (exec evs (initial c (default 200 a))) = ∅)
  ∧ (∃ st' p,
       enqueue NotCallable arg now clk (exec evs (initial c (default 200 a)))
         = Normal (st', Handle (idSeq (exec evs (initial c (default 200 a)))))
       ∧ observed (idSeq (exec evs (initial c (default 200 a)))) st'
           = Some Pending
       ∧ queued_or_scheduled
           (Item (idSeq (exec evs (initial c (default 200 a)))) p now
                 NotCallable false) st')
  ∧ (∀ i it,
       slots (exec evs (initial c (default 200 a))) !! i
         = Some (Slot it Scheduled) →
       run it = NotCallable →
       trace (step (exec evs (initial c (default 200 a))) (EvRun i))
         = trace (exec evs (initial c (default 200 a)))
             ++ [Complete i (Rejected TypeError)]
       ∧ (observed i (exec evs (initial c (default 200 a))) = Some Pending →
            observed i (exec [EvRun i; EvDeliver i]
                          (exec evs (initial c (default 200 a))))
              = Some (Settled (Rejected TypeError)))).
Proof.
  intros Harg. set (st0 := initial c (default 200 a)).
  pose proof (Inv_exec evs st0 (Inv_initial _ _)) as [HWf HH].
  set (st := exec evs st0) in *. split_and!.
  - reflexivity.
  - intros Hc. apply no_budget_exec; done.
  - assert (∃ p, enqueue_priority arg = Normal p) as [p Hp].
    { destruct arg; simpl; eauto. done. }
    exists (pump clk (push (new_item st NotCallable p now) st)), p.
    unfold enqueue. rewrite Hp. split_and!.
    + done.
    + unfold observed, pump. rewrite promises_pump_loop. simpl.
      by rewrite lookup_insert_eq.
    + apply queued_or_scheduled_pump_loop; [done | by apply Wf_push |].
      left. simpl. apply elem_of_app. right. by apply list_elem_of_singleton.
  - intros i it. apply type_error_later.
Qed.

Lemma invalid_input_fails_late_witness :
  createTaskQueue (Obj (QueueOpts (Some 0) None)) = Normal no_budget
  ∧ (0 ≤ 0 →
       running (exec two_submitted no_budget) = 0
       ∧ slots (exec two_submitted no_budget) = ∅)
  ∧ (∃ st' p,
       enqueue NotCallable Undefined 5 noon (exec two_submitted no_budget)
         = Normal (st', Handle (idSeq (exec two_submitted no_budget)))
       ∧ observed (idSeq (exec two_submitted no_budget)) st' = Some Pending
       ∧ queued_or_scheduled
           (Item (idSeq (exec two_submitted no_budget)) p 5 NotCallable false)
           st')
  ∧ (∀ i it,
       slots (exec two_submitted no_budget) !! i = Some (Slot it Scheduled) →
       run it = NotCallable →
       trace (step (exec two_submitted no_budget) (EvRun i))
         = trace (exec two_submitted no_budget)
             ++ [Complete i (Rejected TypeError)]
       ∧ (observed i (exec two_submitted no_budget) = Some Pending →
            observed i (exec [EvRun i; EvDeliver i]
                          (exec two_submitted no_budget))
              = Some (Settled (Rejected TypeError)))).
Proof.
  apply (invalid_input_fails_late 0 None two_submitted Undefined 5 noon).
  discriminate.
Defined.

(** C8 as stated fails: a limit of 0 is accepted, and on a queue of limit 2 a
    number passed as work unit is accepted too: [enqueue] returns a handle,
    the record has been pushed and dispatched, and only the later reactions
    reject the promise. *)
Lemma invalid_input_is_not_rejected_synchronously :
  createTaskQueue (Obj (QueueOpts (Some 0) None)) = Normal no_budget
  ∧ (∀ e, createTaskQueue (Obj (QueueOpts (Some 0) None)) ≠ Throw e)
  ∧ (∀ e, enqueue NotCallable Undefined 0 noon no_budget ≠ Throw e)
  ∧ q (step no_budget (EvEnqueue NotCallable Undefined 0 noon))
      = [Item 1 1 0 NotCallable false]
  ∧ (∀ e, enqueue NotCallable Undefined 0 noon (initial 2 200) ≠ Throw e)
  ∧ slots (step (initial 2 200) (EvEnqueue NotCallable Undefined 0 noon))
      !! 1%nat = Some (Slot (Item 1 1 0 NotCallable false) Scheduled)
  ∧ observed 1 (step (initial 2 200) (EvEnqueue NotCallable Undefined 0 noon))
      = Some Pending
  ∧ observed 1 (exec [EvEnqueue NotCallable Undefined 0 noon; EvRun 1;
                      EvDeliver 1] (initial 2 200))
      = Some (Settled (Rejected TypeError)).
Proof.
  split_and!; try (vm_compute; reflexivity); intros e; vm_compute; discriminate.
Qed.

(** ** Selection order *)

Lemma exec_app (l1 l2 : list event) (st : state) :
  exec (l1 ++ l2) st = exec l2 (exec l1 st).
Proof. apply fold_left_app. Qed.

Lemma exec_finally (i : nat) (clk : nat → Z) (l : list event) (st : state) :
  exec (EvFinally i clk :: l) st = exec l (finally i clk st).
Proof. reflexivity. Qed.

(** [pump] with room for exactly one more record and a head that no other
    queued record beats: the head is dispatched. *)
Lemma pump_head (clk : nat → Z) (st : state) (it : item) (rest : list item) :
  q st = it :: rest → canceled it = false →
  running st < concurrency st → concurrency st ≤ running st + 1 →
  (∀ it', it' ∈ rest →
     score (agingMs st) it (clk 0%nat) ≤ score (agingMs st) it' (clk 0%nat)) →
  pump clk st = dispatch it (set_q rest st).
Proof.
  intros Hq Hc Hlt Hfull Hle. unfold pump. rewrite Hq. cbn [length pump_loop].
  destruct (Z.ltb_spec (running st) (concurrency st)); [|lia].
  rewrite Hq, (pickNextIndex_head _ _ _ _ Hle). simpl. rewrite Hc.
  destruct (Z.ltb_spec (running st + 1) (concurrency st)); [lia | done].
Qed.

Lemma three_same_priority_order (a p t1 t2 t3 : Z) (clk : nat → Z)
    (r1 r2 r3 : result) :
  0 ≤ clk 0%nat - t2 < a → 0 ≤ clk 0%nat - t3 < a →
  trace (exec (three_same_priority p t1 t2 t3 clk r1 r2 r3) (initial 1 a)) =
    [ Dispatch 1; Invoke 1; Complete 1 (of_result r1); Settle 1 (of_result r1);
      Dispatch 2; Invoke 2; Complete 2 (of_result r2); Settle 2 (of_result r2);
      Dispatch 3; Invoke 3; Complete 3 (of_result r3); Settle 3 (of_result r3) ].
Proof.
  intros Hw2 Hw3.
  set (it1 := Item 1 p t1 Callable false).
  set (it2 := Item 2 p t2 Callable false).
  set (it3 := Item 3 p t3 Callable false).
  set (st := State 1 a 1 4 [it2; it3] {[ 1%nat := Slot it1 Delivered ]}
               (<[3%nat := Pending]>
                  (<[2%nat := Pending]>
                     {[ 1%nat := Settled (of_result r1) ]}))
               [ Dispatch 1; Invoke 1; Complete 1 (of_result r1);
                 Settle 1 (of_result r1) ]).
  change (three_same_priority p t1 t2 t3 clk r1 r2 r3) with
    ([ EvEnqueue Callable (Obj (EnqueueOpts (Some p))) t1 clk;
       EvEnqueue Callable (Obj (EnqueueOpts (Some p))) t2 clk;
       EvEnqueue Callable (Obj (EnqueueOpts (Some p))) t3 clk;
       EvRun 1; EvComplete 1 r1; EvDeliver 1 ]
     ++ EvFinally 1 clk
        :: [ EvRun 2; EvComplete 2 r2; EvDeliver 2; EvFinally 2 clk;
             EvRun 3; EvComplete 3 r3; EvDeliver 3; EvFinally 3 clk ]).
  rewrite exec_app.
  assert (Hpre : exec
            [ EvEnqueue Callable (Obj (EnqueueOpts (Some p))) t1 clk;
              EvEnqueue Callable (Obj (EnqueueOpts (Some p))) t2 clk;
              EvEnqueue Callable (Obj (EnqueueOpts (Some p))) t3 clk;
              EvRun 1; EvComplete 1 r1; EvDeliver 1 ] (initial 1 a) = st).
  { destruct r1; vm_compute; reflexivity. }
  rewrite Hpre.
  rewrite exec_finally.
  assert (Hfin : finally 1 clk st =
            dispatch it2
              (set_q [it3]
                 (State 1 a 0 4 [it2; it3] ∅ (promises st) (trace st)))).
  { unfold finally.
    replace (slots st !! 1%nat) with (Some (Slot it1 Delivered))
      by (vm_compute; reflexivity).
    replace (delete 1%nat (slots st)) with (∅ : gmap nat slot)
      by (vm_compute; reflexivity).
    apply pump_head; simpl; try done.
    intros it' ->%list_elem_of_singleton.
    rewrite !score_fresh by done. done. }
  rewrite Hfin. destruct r1, r2, r3; vm_compute; reflexivity.
Qed.

(** C4. On an empty queue the selector returns -1 (none).  On a non-empty
    queue of a reachable state, for an aging window other than 0 (the code
    divides by it), it returns the position of a record whose
    score at [now] is minimal, and among the records with that score the
    selected one comes first in the array and has the smallest id, i.e. it
    was submitted first.  With limit 1, three records of one priority, on
    which no aging has elapsed when the first slot frees, are dispatched and
    called in submission order. *)
Theorem selector_first_minimum (arg : jsarg queue_opts) (st0 : state)
    (evs : list event) (now a p t1 t2 t3 : Z) (clk : nat → Z)
    (r1 r2 r3 : result) :
  createTaskQueue arg = Normal st0 → agingMs st0 ≠ 0 →
  0 ≤ clk 0%nat - t2 < a → 0 ≤ clk 0%nat - t3 < a →
  pickNextIndex (agingMs (exec evs st0)) [] now = -1
  ∧ (q (exec evs st0) ≠ [] →
     ∃ n it,
       pickNextIndex (agingMs (exec evs st0)) (q (exec evs st0)) now
         = Z.of_nat n
       ∧ q (exec evs st0) !! n = Some it
       ∧ (∀ it', it' ∈ q (exec evs st0) →
            score (agingMs (exec evs st0)) it now
              ≤ score (agingMs (exec evs st0)) it' now)
       ∧ (∀ m it', q (exec evs st0) !! m = Some it' →
            score (agingMs (exec evs st0)) it' now
              = score (agingMs (exec evs st0)) it now →
            (n ≤ m)%nat ∧ (id it ≤ id it')%nat))
  ∧ dispatches
      (trace (exec (three_same_priority p t1 t2 t3 clk r1 r2 r3) (initial 1 a)))
      = [1; 2; 3]%nat
  ∧ invocations
      (trace (exec (three_same_priority p t1 t2 t3 clk r1 r2 r3) (initial 1 a)))
      = [1; 2; 3]%nat.
Proof.
  intros Hc Ha Hw2 Hw3.
  pose proof (Inv_exec evs st0 (Inv_created _ _ Hc)) as [HWf _].
  set (st := exec evs st0) in *. split_and!.
  - reflexivity.
  - intros Hne.
    destruct (pickNextIndex_first_min (agingMs st) now (q st) Hne)
      as (n & s & Hn & it & Hit & Hs & Hmin & Hfirst).
    exists n, it. rewrite Hs. split_and!; [done | done | done |].
    intros m it' Hm Heq.
    destruct (decide (m < n)%nat) as [Hlt | Hge].
    { specialize (Hfirst _ _ Hlt Hm). lia. }
    split; [lia|].
    destruct (decide (m = n)) as [-> | Hmn]; [by simplify_eq|].
    assert (n < m)%nat as Hnm by lia.
    pose proof (wf_q_order _ HWf _ _ _ _ Hnm Hit Hm). lia.
  - rewrite three_same_priority_order by done. reflexivity.
  - rewrite three_same_priority_order by done. reflexivity.
Qed.

Lemma selector_first_minimum_witness :
  pickNextIndex (agingMs (exec aged_and_fresh one_at_a_time)) [] 300 = -1
  ∧ (q (exec aged_and_fresh one_at_a_time) ≠ [] →
     ∃ n it,
       pickNextIndex (agingMs (exec aged_and_fresh one_at_a_time))
                     (q (exec aged_and_fresh one_at_a_time)) 300
         = Z.of_nat n
       ∧ q (exec aged_and_fresh one_at_a_time) !! n = Some it
       ∧ (∀ it', it' ∈ q (exec aged_and_fresh one_at_a_time) →
            score (agingMs (exec aged_and_fresh one_at_a_time)) it 300
              ≤ score (agingMs (exec aged_and_fresh one_at_a_time)) it' 300)
       ∧ (∀ m it', q (exec aged_and_fresh one_at_a_time) !! m = Some it' →
            score (agingMs (exec aged_and_fresh one_at_a_time)) it' 300
              = score (agingMs (exec aged_and_fresh one_at_a_time)) it 300 →
            (n ≤ m)%nat ∧ (id it ≤ id it')%nat))
  ∧ dispatches
      (trace (exec (three_same_priority 1 0 0 0 noon (Returns 1) (Returns 2)
                      (Returns 3)) (initial 1 150)))
      = [1; 2; 3]%nat
  ∧ invocations
      (trace (exec (three_same_priority 1 0 0 0 noon (Returns 1) (Returns 2)
                      (Returns 3)) (initial 1 150)))
      = [1; 2; 3]%nat.
Proof.
  apply (selector_first_minimum (Obj (QueueOpts (Some 1) (Some 150)))
           one_at_a_time aged_and_fresh 300 150 1 0 0 0 noon
           (Returns 1) (Returns 2) (Returns 3)).
  - reflexivity.
  - vm_compute. discriminate.
  - vm_compute. split; [discriminate | reflexivity].
  - vm_compute. split; [discriminate | reflexivity].
Defined.

(** The queue of the witness: two records wait, both score 0 at time 300,
    and the selector takes the first, the aged low-priority one; at time 299
    the aged record still scores 1 and the selector takes the high-priority
    one behind it. *)
Example selection_on_a_tie :
  q (exec aged_and_fresh one_at_a_time)
    = [ Item 2 Priority.low 0 Callable false;
        Item 3 Priority.high 300 Callable false ]
  ∧ score 150 (Item 2 Priority.low 0 Callable false) 300 = 0
  ∧ score 150 (Item 3 Priority.high 300 Callable false) 300 = 0
  ∧ pickNextIndex (agingMs (exec aged_and_fresh one_at_a_time))
                  (q (exec aged_and_fresh one_at_a_time)) 300 = 0
  ∧ pickNextIndex 150 [ Item 2 Priority.low 0 Callable false;
                        Item 3 Priority.high 299 Callable false ] 299 = 1.
Proof. split_and!; vm_compute; reflexivity. Qed.

(** The tie of the aging example: at 300 the selector prefers the aged
    low-priority record, which was submitted first, to a high-priority record
    submitted just now; one millisecond earlier the high-priority record
    wins. *)
Example aged_low_ties_with_high :
  pickNextIndex 150 [ Item 1 Priority.low 0 Callable false;
                      Item 2 Priority.high 300 Callable false ] 300 = 0
  ∧ pickNextIndex 150 [ Item 1 Priority.low 0 Callable false;
                        Item 2 Priority.high 299 Callable false ] 299 = 1.
Proof. split; reflexivity. Qed.

(** * Further properties of the scheduler *)

(** ** The dispatcher *)

(** X1. [pump] is idempotent: a second call right after a first one, with any
    clock, changes nothing. *)
Theorem pump_is_idempotent (clk1 clk2 : nat → Z) (st : state) :
  pump clk2 (pump clk1 st) = pump clk1 st.
Proof.
  destruct (pump_done clk1 st) as [Hfull | Hq]; unfold pump at 1.
  - by apply pump_loop_full.
  - rewrite Hq. cbn [length pump_loop].
    destruct (running _ <? concurrency _); [|done]. by rewrite Hq.
Qed.

Lemma settled_down_step (st : state) (ev : event) :
  settled_down st → settled_down (step st ev).
Proof.
  intros Hs. destruct ev as [w arg now clk | i | i | i r | i | i clk]; simpl.
  - unfold enqueue. destruct (enqueue_priority arg) as [p|]; [|done].
    apply pump_done.
  - unfold settled_down, cancel, settle in *. simpl.
    destruct (_ !! i) as [[|?]|]; simpl;
      (destruct Hs as [? | ->]; [by left | by right]).
  - unfold run_reaction.
    destruct (slots st !! i) as [[it []]|]; try done. by destruct (run it).
  - unfold complete. by destruct (slots st !! i) as [[it []]|].
  - unfold deliver. destruct (slots st !! i) as [[it []]|]; try done.
    unfold settled_down, settle in *. simpl.
    by destruct (_ !! i) as [[|?]|].
  - unfold finally. destruct (slots st !! i) as [[it []]|]; try done.
    apply pump_done.
Qed.

Lemma settled_down_exec (evs : list event) (st : state) :
  settled_down st → settled_down (exec evs st).
Proof.
  revert st. induction evs as [|ev evs IH]; intros st Hs; [done|].
  simpl. apply IH. by apply settled_down_step.
Qed.

(** X2. No slot idles while a record waits: in every reachable state with a
    non-empty queue [running] has reached [concurrency]; for a limit [>= 0]
    the two are equal. *)
Theorem no_idle_slot_while_queued (arg : jsarg queue_opts) (st0 : state)
    (evs : list event) :
  createTaskQueue arg = Normal st0 → q (exec evs st0) ≠ [] →
  concurrency (exec evs st0) ≤ running (exec evs st0)
  ∧ (0 ≤ concurrency st0 → running (exec evs st0) = concurrency st0).
Proof.
  intros Hc Hq.
  pose proof (Inv_exec evs st0 (Inv_created _ _ Hc)) as [HWf _].
  destruct (config_reachable st0 (exec evs st0)) as [Hcc _].
  { apply reachable_exec. constructor. }
  assert (settled_down (exec evs st0)) as [Hfull | Hnil].
  { apply settled_down_exec.
    destruct (createTaskQueue_initial _ _ Hc) as (c & a & ->). by right. }
  - split; [done|]. intros Hpos. pose proof (wf_budget _ HWf). lia.
  - done.
Qed.

Lemma no_idle_slot_while_queued_witness :
  concurrency (exec demo_events demo_queue) ≤ running (exec demo_events demo_queue)
  ∧ (0 ≤ concurrency demo_queue →
       running (exec demo_events demo_queue) = concurrency demo_queue).
Proof.
  apply (no_idle_slot_while_queued (Obj (QueueOpts (Some 2) (Some 150)))
           demo_queue demo_events).
  - reflexivity.
  - vm_compute. discriminate.
Defined.

(** ** The selector *)

(** X3. [pickNextIndex] returns -1 exactly on the empty array; on any other
    array it returns a position of the array, so the [splice] in [pump]
    always yields a record. *)
Theorem selector_index_in_bounds (a now : Z) (l : list item) :
  (pickNextIndex a l now = -1 ↔ l = [])
  ∧ (l ≠ [] →
     0 ≤ pickNextIndex a l now < Z.of_nat (length l)
     ∧ is_Some (l !! Z.to_nat (pickNextIndex a l now))).
Proof.
  split.
  - split; [|by intros ->].
    destruct l as [|it0 rest]; [done|]. simpl. lia.
  - intros Hne.
    destruct (pickNextIndex_range a now l Hne) as (n & it & -> & Hit).
    pose proof (lookup_lt_Some _ _ _ Hit). rewrite Nat2Z.id.
    split; [lia | eauto].
Qed.

(** X4. Aging protects a waiting record: once a record has waited
    [priority * agingMs] or longer (with [agingMs > 0]) its score is 0, and
    the selector returns its position or an earlier one, holding a record of
    score 0 as well: nothing queued after it is selected ahead of it,
    whatever its priority. *)
Theorem aged_record_is_not_overtaken (a now : Z) (l : list item) (n : nat)
    (it : item) :
  0 < a → l !! n = Some it → priority it * a ≤ now - enqueuedAt it →
  score a it now = 0
  ∧ ∃ m sel, pickNextIndex a l now = Z.of_nat m ∧ (m ≤ n)%nat
      ∧ l !! m = Some sel ∧ score a sel now = 0.
Proof.
  intros Ha Hit Hw.
  assert (score a it now = 0) as Hz.
  { unfold score.
    assert (priority it ≤ (now - enqueuedAt it) / a)
      by (apply Z.div_le_lower_bound; lia).
    lia. }
  split; [done|].
  destruct (pickNextIndex_first_min a now l) as
    (m & s & Hm & sel & Hsel & Hs & Hmin & Hfirst).
  { intros ->. done. }
  exists m, sel.
  assert (s = 0) as ->.
  { apply list_elem_of_lookup_2 in Hit. specialize (Hmin _ Hit).
    pose proof (score_nonneg a sel now). lia. }
  split_and!; [done | | done | done].
  destruct (decide (m ≤ n)%nat) as [|Hgt]; [done|].
  specialize (Hfirst n it ltac:(lia) Hit). lia.
Qed.

Lemma aged_record_is_not_overtaken_witness :
  score 150 (Item 3 Priority.normal 0 Callable false) 250 = 0
  ∧ ∃ m sel, pickNextIndex 150 demo_waiting 250 = Z.of_nat m ∧ (m ≤ 0)%nat
      ∧ demo_waiting !! m = Some sel ∧ score 150 sel 250 = 0.
Proof.
  apply (aged_record_is_not_overtaken 150 250 demo_waiting 0
           (Item 3 Priority.normal 0 Callable false)).
  - lia.
  - reflexivity.
  - vm_compute. discriminate.
Defined.

(** ** Dispatching and calling at most once *)

Lemma dispatches_snoc (tr : list effect) (e : effect) :
  dispatches (tr ++ [e]) =
    dispatches tr ++ match e with Dispatch i => [i] | _ => [] end.
Proof. unfold dispatches. rewrite omap_app. simpl. by destruct e. Qed.

Lemma invocations_snoc (tr : list effect) (e : effect) :
  invocations (tr ++ [e]) =
    invocations tr ++ match e with Invoke i => [i] | _ => [] end.
Proof. unfold invocations. rewrite omap_app. simpl. by destruct e. Qed.

Lemma elem_of_dispatches (i : nat) (tr : list effect) :
  i ∈ dispatches tr ↔ Dispatch i ∈ tr.
Proof.
  unfold dispatches. rewrite list_elem_of_omap. split.
  - intros (x & Hx & Hf). destruct x; by simplify_eq.
  - intros Hi. by exists (Dispatch i).
Qed.

Lemma elem_of_invocations (i : nat) (tr : list effect) :
  i ∈ invocations tr ↔ Invoke i ∈ tr.
Proof.
  unfold invocations. rewrite list_elem_of_omap. split.
  - intros (x & Hx & Hf). destruct x; by simplify_eq.
  - intros Hi. by exists (Invoke i).
Qed.

Lemma NoDup_snoc_fresh {A} (l : list A) (x : A) :
  NoDup l → x ∉ l → NoDup (l ++ [x]).
Proof.
  intros Hl Hx. apply NoDup_app. split_and!; [done | | apply NoDup_singleton].
  intros y Hy ->%list_elem_of_singleton. done.
Qed.

(** Extending the history by an effect that is neither a dispatch nor a call
    keeps both lists. *)
Lemma Once_quiet (st st' : state) (e : effect) :
  trace st' = trace st ++ [e] →
  (∀ i, e ≠ Dispatch i) → (∀ i, e ≠ Invoke i) →
  (∀ i it, slots st' !! i = Some (Slot it Scheduled) →
     slots st !! i = Some (Slot it Scheduled)
     ∨ ∃ it', slots st !! i = Some (Slot it' Scheduled)) →
  Once st → Once st'.
Proof.
  intros Ht Hd Hi Hs [H1 H2 H3]. split.
  - rewrite Ht, dispatches_snoc. destruct e; rewrite ?app_nil_r; try done.
    by destruct (Hd i).
  - rewrite Ht, invocations_snoc. destruct e; rewrite ?app_nil_r; try done.
    by destruct (Hi i).
  - intros i it Hsl. rewrite Ht. intros Hin. trace_cases Hin.
    + destruct (Hs _ _ Hsl) as [Hold | [it' Hold]]; by eapply H3.
    + by destruct (Hi i).
Qed.

Lemma Once_silent (st st' : state) :
  trace st' = trace st →
  (∀ i it, slots st' !! i = Some (Slot it Scheduled) →
     ∃ it', slots st !! i = Some (Slot it' Scheduled)) →
  Once st → Once st'.
Proof.
  intros Ht Hs [H1 H2 H3]. split; rewrite ?Ht; try done.
  intros i it Hsl. rewrite Ht. destruct (Hs _ _ Hsl) as [it' Hold].
  by eapply H3.
Qed.

Lemma Once_dispatch (st : state) (n : nat) (it : item) :
  q st !! n = Some it → Hist st → Once st →
  Once (dispatch it (set_q (delete n (q st)) st)).
Proof.
  intros Hit HH [H1 H2 H3].
  assert (it ∈ q st) as Hin by (eapply list_elem_of_lookup_2; eauto).
  split; simpl.
  - rewrite dispatches_snoc. apply NoDup_snoc_fresh; [done|].
    rewrite elem_of_dispatches. intros He.
    by specialize (hist_q _ HH _ _ Hin He eq_refl).
  - by rewrite invocations_snoc, app_nil_r.
  - unfold uncalled_scheduled. simpl.
    intros i it' [[<- [= <-]] | [Hne Hs]]%lookup_insert_Some Hi;
      trace_cases Hi.
    + by specialize (hist_q _ HH _ _ Hin Hi eq_refl).
    + by eapply H3.
Qed.

Lemma Once_pump_loop (fuel : nat) (clk : nat → Z) (k : nat) (st : state) :
  Inv st ∧ Once st →
  Inv (pump_loop fuel clk k st) ∧ Once (pump_loop fuel clk k st).
Proof.
  apply (pump_loop_preserves (λ s, Inv s ∧ Once s)).
  - intros s n it _ _ _ [[HW HH] HO]. split.
    + split; [by apply Wf_drop | by apply Hist_drop].
    + destruct HO as [H1 H2 H3]. by split.
  - intros s n it Hlt Hit _ [[HW HH] HO]. split.
    + split; [by apply Wf_dispatch | by apply Hist_dispatch].
    + by apply Once_dispatch.
Qed.

Lemma Once_settle (i : nat) (o : outcome) (st : state) :
  Once st → Once (settle i o st).
Proof.
  intros HO. unfold settle. destruct (promises st !! i) as [[|?]|]; try done.
  eapply (Once_quiet st); [reflexivity | done | done | | done].
  intros j it Hj. by left.
Qed.

Lemma Once_step (st : state) (ev : event) :
  Inv st → Once st → Once (step st ev).
Proof.
  intros HI HO.
  destruct ev as [w arg now clk | i | i | i r | i | i clk]; simpl.
  - unfold enqueue. destruct (enqueue_priority arg) as [p|]; [|done].
    apply Once_pump_loop. destruct HI as [HWf HH]. split.
    + split; [by apply Wf_push | by apply Hist_push].
    + destruct HO as [H1 H2 H3]. by split.
  - unfold cancel. apply Once_settle.
    apply (Once_silent st); [done | | done].
    simpl. intros j it (s & Heq & Hj)%lookup_fmap_Some. destruct s as [it0 ph].
    injection Heq as _ ->. eauto.
  - unfold run_reaction.
    destruct (slots st !! i) as [[it []]|] eqn:Hi; try done.
    destruct (run it).
    + destruct HO as [H1 H2 H3]. split; simpl.
      * by rewrite dispatches_snoc, app_nil_r.
      * rewrite invocations_snoc. apply NoDup_snoc_fresh; [done|].
        rewrite elem_of_invocations. by eapply H3.
      * unfold uncalled_scheduled. simpl.
        intros j it' [[<- [=]] | [Hne Hs]]%lookup_insert_Some Hin.
        trace_cases Hin; [by eapply H3 | done].
    + eapply (Once_quiet st); [reflexivity | done | done | | done].
      simpl. intros j it' [[<- [=]] | [Hne Hs]]%lookup_insert_Some. by left.
  - unfold complete.
    destruct (slots st !! i) as [[it []]|] eqn:Hi; try done.
    eapply (Once_quiet st); [reflexivity | done | done | | done].
    simpl. intros j it' [[<- [=]] | [Hne Hs]]%lookup_insert_Some. by left.
  - unfold deliver.
    destruct (slots st !! i) as [[it []]|] eqn:Hi; try done.
    apply (Once_silent (settle i o st)); [| | by apply Once_settle].
    + simpl. by rewrite app_nil_r.
    + simpl. intros j it' [[<- [=]] | [Hne Hs]]%lookup_insert_Some. eauto.
  - unfold finally.
    destruct (slots st !! i) as [[it []]|] eqn:Hi; try done.
    apply Once_pump_loop. destruct HI as [HWf HH]. split.
    + split; [eapply Wf_release; eauto | by apply Hist_release].
    + apply (Once_silent st); [done | | done].
      simpl. intros j it' [Hne Hs]%lookup_delete_Some. eauto.
Qed.

Lemma Once_exec (evs : list event) (st : state) :
  Inv st → Once st → Once (exec evs st).
Proof.
  revert st. induction evs as [|ev evs IH]; intros st HI HO; [done|].
  simpl. apply IH; [by apply Inv_step | by apply Once_step].
Qed.

(** X5. No record is dispatched twice and no work unit is called twice: in
    the history of every reachable state each id occurs at most once among
    the dispatches and at most once among the calls, and only dispatched
    records are called. *)
Theorem dispatched_and_called_at_most_once (arg : jsarg queue_opts)
    (st0 : state) (evs : list event) :
  createTaskQueue arg = Normal st0 →
  NoDup (dispatches (trace (exec evs st0)))
  ∧ NoDup (invocations (trace (exec evs st0)))
  ∧ ∀ i, i ∈ invocations (trace (exec evs st0)) →
      i ∈ dispatches (trace (exec evs st0)).
Proof.
  intros Hc. pose proof (Inv_created _ _ Hc) as HI0.
  assert (Once st0) as HO0.
  { destruct (createTaskQueue_initial _ _ Hc) as (c & a & ->).
    split; simpl; [constructor | constructor |]. intros i it Hs. done. }
  pose proof (Once_exec evs st0 HI0 HO0) as [H1 H2 _].
  pose proof (Inv_exec evs st0 HI0) as [_ HH].
  split_and!; [done | done |].
  intros i. rewrite elem_of_invocations, elem_of_dispatches.
  apply (hist_invoke _ HH).
Qed.

Lemma dispatched_and_called_at_most_once_witness :
  NoDup (dispatches (trace (exec demo_events demo_queue)))
  ∧ NoDup (invocations (trace (exec demo_events demo_queue)))
  ∧ ∀ i, i ∈ invocations (trace (exec demo_events demo_queue)) →
      i ∈ dispatches (trace (exec demo_events demo_queue)).
Proof.
  apply (dispatched_and_called_at_most_once
           (Obj (QueueOpts (Some 2) (Some 150))) demo_queue demo_events).
  reflexivity.
Defined.

(** ** Task ids and load *)

Lemma idSeq_pump_loop (fuel : nat) (clk : nat → Z) (k : nat) (st : state) :
  idSeq (pump_loop fuel clk k st) = idSeq st.
Proof. by apply (pump_loop_preserves (λ s, idSeq s = idSeq st)). Qed.

Lemma idSeq_step (st : state) (ev : event) :
  idSeq (step st ev) = (idSeq st + if accepted ev then 1 else 0)%nat.
Proof.
  destruct ev as [w arg now clk | i | i | i r | i | i clk]; simpl.
  - unfold enqueue.
    destruct arg; cbn [enqueue_priority accepted]; [|lia|];
      unfold pump; rewrite idSeq_pump_loop; simpl; lia.
  - unfold cancel. rewrite idSeq_settle. simpl. lia.
  - unfold run_reaction.
    destruct (slots st !! i) as [[it []]|]; try (simpl; lia).
    destruct (run it); simpl; lia.
  - unfold complete. destruct (slots st !! i) as [[it []]|]; simpl; lia.
  - unfold deliver. destruct (slots st !! i) as [[it []]|]; try (simpl; lia).
    simpl. rewrite idSeq_settle. lia.
  - unfold finally, pump.
    destruct (slots st !! i) as [[it []]|]; try (simpl; lia).
    rewrite idSeq_pump_loop. simpl. lia.
Qed.

Lemma idSeq_exec (evs : list event) (st : state) :
  idSeq (exec evs st) = (idSeq st + submissions evs)%nat.
Proof.
  revert st. induction evs as [|ev evs IH]; intros st.
  - simpl. unfold submissions. simpl. lia.
  - simpl. rewrite IH, idSeq_step. unfold submissions.
    rewrite filter_cons. destruct (accepted ev) eqn:Ha.
    + rewrite decide_True by done. simpl. lia.
    + rewrite decide_False by done. lia.
Qed.

(** X6. Ids count the accepted submissions: after any run, the next accepted
    [enqueue] returns the id [n + 1], where [n] is the number of submissions
    accepted so far.  That id is new: before the call it names no promise, no
    queued or dispatched record and no entry of the history; after the call
    its promise is pending. *)
Theorem ids_count_submissions (arg : jsarg queue_opts) (st0 : state)
    (evs : list event) (w : work) (opts : jsarg enqueue_opts) (now : Z)
    (clk : nat → Z) :
  createTaskQueue arg = Normal st0 → opts ≠ Null →
  ∃ st',
    enqueue w opts now clk (exec evs st0)
      = Normal (st', Handle (S (submissions evs)))
    ∧ idSeq st' = S (S (submissions evs))
    ∧ observed (S (submissions evs)) (exec evs st0) = None
    ∧ observed (S (submissions evs)) st' = Some Pending
    ∧ (∀ it, it ∈ q (exec evs st0) → id it ≠ S (submissions evs))
    ∧ slots (exec evs st0) !! S (submissions evs) = None
    ∧ (∀ e, e ∈ trace (exec evs st0) → effect_id e ≠ S (submissions evs)).
Proof.
  intros Hc Hopts.
  pose proof (Inv_exec evs st0 (Inv_created _ _ Hc)) as [HWf HH].
  assert (idSeq (exec evs st0) = S (submissions evs)) as Hid.
  { rewrite idSeq_exec.
    by destruct (createTaskQueue_initial _ _ Hc) as (c & a & ->). }
  set (st := exec evs st0) in *.
  assert (∃ p, enqueue_priority opts = Normal p) as [p Hp].
  { destruct opts; simpl; eauto. done. }
  exists (pump clk (push (new_item st w p now) st)).
  unfold enqueue. rewrite Hp. simpl. rewrite <- Hid. split_and!.
  - done.
  - unfold pump. by rewrite idSeq_pump_loop.
  - apply (wf_promise_issued _ HWf). lia.
  - unfold observed, pump. rewrite promises_pump_loop. simpl.
    by rewrite lookup_insert_eq.
  - intros it Hin. pose proof (wf_q_issued _ HWf _ Hin). lia.
  - destruct (slots st !! idSeq st) as [s|] eqn:Hs; [|done].
    destruct (wf_slot_issued _ HWf _ _ Hs). lia.
  - intros e He. pose proof (hist_issued _ HH _ He). lia.
Qed.

Lemma ids_count_submissions_witness :
  ∃ st',
    enqueue Callable Undefined 300 noon (exec demo_events demo_queue)
      = Normal (st', Handle (S (submissions demo_events)))
    ∧ idSeq st' = S (S (submissions demo_events))
    ∧ observed (S (submissions demo_events)) (exec demo_events demo_queue)
        = None
    ∧ observed (S (submissions demo_events)) st' = Some Pending
    ∧ (∀ it, it ∈ q (exec demo_events demo_queue) →
         id it ≠ S (submissions demo_events))
    ∧ slots (exec demo_events demo_queue) !! S (submissions demo_events) = None
    ∧ (∀ e, e ∈ trace (exec demo_events demo_queue) →
         effect_id e ≠ S (submissions demo_events)).
Proof.
  apply (ids_count_submissions (Obj (QueueOpts (Some 2) (Some 150)))
           demo_queue demo_events Callable Undefined 300 noon).
  - reflexivity.
  - discriminate.
Defined.

Lemma load_pump_loop (fuel : nat) (clk : nat → Z) (k : nat) (st : state) :
  Z.of_nat (length (q (pump_loop fuel clk k st)))
    + running (pump_loop fuel clk k st)
  ≤ Z.of_nat (length (q st)) + running st.
Proof.
  apply (pump_loop_preserves
           (λ s, Z.of_nat (length (q s)) + running s
                 ≤ Z.of_nat (length (q st)) + running st)); [| |lia].
  - intros s n it _ Hit _ Hle. simpl. rewrite length_delete by eauto. lia.
  - intros s n it _ Hit _ Hle. simpl. rewrite length_delete by eauto.
    apply lookup_lt_Some in Hit. lia.
Qed.

Lemma load_step (st : state) (ev : event) :
  Wf st →
  Z.of_nat (length (q st)) + running st ≤ Z.of_nat (idSeq st) - 1 →
  Z.of_nat (length (q (step st ev))) + running (step st ev)
    ≤ Z.of_nat (idSeq (step st ev)) - 1.
Proof.
  intros HWf Hle. rewrite idSeq_step.
  destruct ev as [w arg now clk | i | i | i r | i | i clk]; simpl.
  - unfold enqueue. destruct arg as [| |o]; simpl; [|lia|].
    + etrans; [apply load_pump_loop|]. simpl. rewrite length_app. simpl. lia.
    + etrans; [apply load_pump_loop|]. simpl. rewrite length_app. simpl. lia.
  - rewrite running_cancel. unfold cancel, settle. simpl.
    destruct (_ !! i) as [[|?]|]; simpl; rewrite length_fmap; lia.
  - unfold run_reaction.
    destruct (slots st !! i) as [[it []]|]; try (simpl; lia).
    destruct (run it); simpl; lia.
  - unfold complete. destruct (slots st !! i) as [[it []]|]; simpl; lia.
  - unfold deliver. destruct (slots st !! i) as [[it []]|]; try (simpl; lia).
    simpl. unfold settle. destruct (_ !! i) as [[|?]|]; simpl; lia.
  - unfold finally. destruct (slots st !! i) as [[it []]|]; try (simpl; lia).
    etrans; [apply load_pump_loop|]. simpl. lia.
Qed.

Lemma load_exec (evs : list event) (st : state) :
  Wf st →
  Z.of_nat (length (q st)) + running st ≤ Z.of_nat (idSeq st) - 1 →
  Z.of_nat (length (q (exec evs st))) + running (exec evs st)
    ≤ Z.of_nat (idSeq (exec evs st)) - 1.
Proof.
  revert st. induction evs as [|ev evs IH]; intros st HWf Hle; [done|].
  simpl. apply IH; [by apply Wf_step | by apply load_step].
Qed.

(** X7. [stats()] never reports negative counts, and the queued and the
    running tasks together never outnumber the submissions accepted so
    far. *)
Theorem stats_bounded_by_submissions (arg : jsarg queue_opts) (st0 : state)
    (evs : list event) :
  createTaskQueue arg = Normal st0 →
  0 ≤ fst (stats (exec evs st0))
  ∧ 0 ≤ snd (stats (exec evs st0))
  ∧ fst (stats (exec evs st0)) + snd (stats (exec evs st0))
      ≤ Z.of_nat (submissions evs).
Proof.
  intros Hc.
  pose proof (Inv_created _ _ Hc) as [HWf0 _].
  pose proof (Inv_exec evs st0 (Inv_created _ _ Hc)) as [HWf _].
  pose proof (idSeq_exec evs st0) as Hid.
  pose proof (load_exec evs st0 HWf0) as Hload.
  destruct (createTaskQueue_initial _ _ Hc) as (c & a & ->).
  simpl in Hid, Hload. specialize (Hload ltac:(lia)).
  unfold stats. simpl. pose proof (wf_running _ HWf). lia.
Qed.

Lemma stats_bounded_by_submissions_witness :
  0 ≤ fst (stats (exec demo_events demo_queue))
  ∧ 0 ≤ snd (stats (exec demo_events demo_queue))
  ∧ fst (stats (exec demo_events demo_queue))
      + snd (stats (exec demo_events demo_queue))
      ≤ Z.of_nat (submissions demo_events).
Proof.
  apply (stats_bounded_by_submissions (Obj (QueueOpts (Some 2) (Some 150)))
           demo_queue demo_events).
  reflexivity.
Defined.

(** ** Outcomes do not steer the dispatcher *)

Lemma core_settle (i : nat) (o : outcome) (st : state) :
  core (settle i o st) = core st.
Proof. unfold settle. by destruct (promises st !! i) as [[|?]|]. Qed.

Lemma pump_loop_core (fuel : nat) (clk : nat → Z) (k : nat) (st1 st2 : state) :
  core st1 = core st2 →
  core (pump_loop fuel clk k st1) = core (pump_loop fuel clk k st2).
Proof.
  revert k st1 st2. induction fuel as [|fuel IH]; intros k st1 st2 Hc; [done|].
  destruct st1 as [c1 a1 r1 n1 q1 s1 p1 t1], st2 as [c2 a2 r2 n2 q2 s2 p2 t2].
  unfold core in Hc. simpl in Hc. simplify_eq. cbn [pump_loop]. simpl.
  destruct (r2 <? c2); [|done].
  destruct (_ =? -1); [done|].
  destruct (q2 !! _) as [it|]; [|done].
  destruct (canceled it); by apply IH.
Qed.

Lemma pump_core (clk : nat → Z) (st1 st2 : state) :
  core st1 = core st2 → core (pump clk st1) = core (pump clk st2).
Proof.
  intros Hc. unfold pump.
  replace (q st2) with (q st1) by (unfold core in Hc; by simplify_eq).
  by apply pump_loop_core.
Qed.

Lemma observed_settle_other (i j : nat) (o : outcome) (st : state) :
  j ≠ i → observed j (settle i o st) = observed j st.
Proof.
  intros Hne. unfold observed, settle.
  destruct (promises st !! i) as [[|?]|]; simpl; try done.
  by rewrite lookup_insert_ne.
Qed.

(** The rest of a chain whose work unit is running, seen by the dispatcher:
    the slot is released and [pump] runs. *)
Lemma chain_core (st : state) (i : nat) (it : item) (r : result)
    (clk : nat → Z) :
  slots st !! i = Some (Slot it InFlight) →
  core (exec [EvComplete i r; EvDeliver i; EvFinally i clk] st) =
  core (pump clk
          (State (concurrency st) (agingMs st) (running st - 1) (idSeq st)
                 (q st) (delete i (slots st)) (promises st) (trace st))).
Proof.
  intros Hi. simpl. unfold complete. rewrite Hi.
  unfold deliver. simpl. rewrite lookup_insert_eq.
  unfold finally. simpl. rewrite lookup_insert_eq.
  apply pump_core.
  pose proof (core_settle i (of_result r)
                (set_phase i it (Completed (of_result r))
                           [Complete i (of_result r)] st)) as Hs.
  unfold core in *. simpl in *. simplify_eq.
  repeat match goal with H : _ = _ |- _ => rewrite H end.
  by rewrite !delete_insert_eq.
Qed.

(** X8. What a work unit produces does not steer the dispatcher: whether it
    returns or fails, the rest of its chain leaves the same limit, running
    count, queue and slots, so a failure frees the slot and starts the next
    record exactly like a success; and the chain does not touch the promise of
    any other task. *)
Theorem dispatcher_ignores_outcomes (st : state) (i j : nat) (r1 r2 : result)
    (clk : nat → Z) :
  j ≠ i →
  core (exec [EvComplete i r1; EvDeliver i; EvFinally i clk] st)
    = core (exec [EvComplete i r2; EvDeliver i; EvFinally i clk] st)
  ∧ observed j (exec [EvComplete i r1; EvDeliver i; EvFinally i clk] st)
      = observed j st.
Proof.
  intros Hne. split.
  - destruct (slots st !! i) as [[it ph]|] eqn:Hi.
    + destruct ph; try (simpl; unfold complete; by rewrite Hi).
      by rewrite !(chain_core st i it _ clk Hi).
    + simpl. unfold complete. by rewrite Hi.
  - simpl.
    assert (Hc : ∀ r, observed j (complete i r st) = observed j st).
    { intros r. unfold complete.
      by destruct (slots st !! i) as [[it []]|]. }
    assert (Hd : ∀ s, observed j (deliver i s) = observed j s).
    { intros s. unfold deliver.
      destruct (slots s !! i) as [[it []]|]; try done.
      unfold observed at 1. simpl. by apply observed_settle_other. }
    assert (Hf : ∀ s, observed j (finally i clk s) = observed j s).
    { intros s. unfold finally.
      destruct (slots s !! i) as [[it []]|]; try done.
      unfold observed, pump. by rewrite promises_pump_loop. }
    by rewrite Hf, Hd, Hc.
Qed.

Lemma dispatcher_ignores_outcomes_witness :
  core (exec [EvComplete 1 (Returns 7); EvDeliver 1; EvFinally 1 noon]
             (exec one_running demo_queue))
    = core (exec [EvComplete 1 (Throws (Failure 9)); EvDeliver 1; EvFinally 1 noon]
                 (exec one_running demo_queue))
  ∧ observed 2 (exec [EvComplete 1 (Returns 7); EvDeliver 1; EvFinally 1 noon]
                     (exec one_running demo_queue))
      = observed 2 (exec one_running demo_queue).
Proof.
  apply (dispatcher_ignores_outcomes (exec one_running demo_queue) 1 2
           (Returns 7) (Throws (Failure 9)) noon).
  discriminate.
Defined.

(** ** What cancel and the other events leave alone *)

Lemma mark_other (i : nat) (it : item) : id it ≠ i → mark i it = it.
Proof. intros Hne. unfold mark. by rewrite decide_False. Qed.

Lemma run_mark (i : nat) (it : item) : run (mark i it) = run it.
Proof. unfold mark. by case_decide. Qed.

Lemma q_cancel (i : nat) (st : state) : q (cancel i st) = mark i <$> q st.
Proof. unfold cancel, settle. simpl. by destruct (_ !! i) as [[|?]|]. Qed.

(** X9. [cancel] of task [i] touches nothing of another task [j]: the
    promise of [j], the position and content of every queued record with
    another id, the slot of [j], the running count and the length of the queue
    stay as they are. *)
Theorem cancel_touches_only_its_task (st : state) (i j : nat) :
  j ≠ i →
  observed j (cancel i st) = observed j st
  ∧ running (cancel i st) = running st
  ∧ length (q (cancel i st)) = length (q st)
  ∧ (∀ n it, q st !! n = Some it → id it ≠ i →
       q (cancel i st) !! n = Some it)
  ∧ (∀ s, slots st !! j = Some s → id (slot_item s) = j →
       slots (cancel i st) !! j = Some s).
Proof.
  intros Hne. split_and!.
  - unfold cancel. rewrite observed_settle_other by done. done.
  - apply running_cancel.
  - by rewrite q_cancel, length_fmap.
  - intros n it Hn Hid. rewrite q_cancel, list_lookup_fmap, Hn. simpl.
    by rewrite mark_other.
  - intros s Hs Hid. rewrite slots_cancel, lookup_fmap, Hs. simpl.
    unfold mark_slot. rewrite mark_other by congruence. by destruct s.
Qed.

Lemma cancel_touches_only_its_task_witness :
  observed 1 (cancel 2 (exec two_submitted one_at_a_time))
    = observed 1 (exec two_submitted one_at_a_time)
  ∧ running (cancel 2 (exec two_submitted one_at_a_time))
      = running (exec two_submitted one_at_a_time)
  ∧ length (q (cancel 2 (exec two_submitted one_at_a_time)))
      = length (q (exec two_submitted one_at_a_time))
  ∧ (∀ n it, q (exec two_submitted one_at_a_time) !! n = Some it →
       id it ≠ 2%nat →
       q (cancel 2 (exec two_submitted one_at_a_time)) !! n = Some it)
  ∧ (∀ s, slots (exec two_submitted one_at_a_time) !! 1%nat = Some s →
       id (slot_item s) = 1%nat →
       slots (cancel 2 (exec two_submitted one_at_a_time)) !! 1%nat = Some s).
Proof.
  apply (cancel_touches_only_its_task (exec two_submitted one_at_a_time) 2 1).
  discriminate.
Defined.

(** X10. A queued record that is not canceled is never lost: whatever
    happens next, short of its own cancellation, it is afterwards still in
    the queue or it holds a slot with the call of its work unit pending. *)
Theorem queued_record_is_kept_or_dispatched (arg : jsarg queue_opts)
    (st0 : state) (evs : list event) (ev : event) (it : item) :
  createTaskQueue arg = Normal st0 →
  it ∈ q (exec evs st0) → canceled it = false → ev ≠ EvCancel (id it) →
  it ∈ q (step (exec evs st0) ev)
  ∨ slots (step (exec evs st0) ev) !! id it = Some (Slot it Scheduled).
Proof.
  intros Hc Hin Hnc Hev.
  pose proof (Inv_exec evs st0 (Inv_created _ _ Hc)) as [HWf _].
  set (st := exec evs st0) in *.
  destruct ev as [w opts now clk | i | i | i r | i | i clk]; simpl.
  - unfold enqueue. destruct (enqueue_priority opts) as [p|]; [|by left].
    apply queued_or_scheduled_pump_loop; [done | by apply Wf_push |].
    left. simpl. apply elem_of_app. by left.
  - left. rewrite q_cancel.
    apply (list_elem_of_fmap_2' _ _ it); [done|].
    rewrite mark_other; [done | congruence].
  - left. unfold run_reaction.
    destruct (slots st !! i) as [[x []]|]; try done. by destruct (run x).
  - left. unfold complete. by destruct (slots st !! i) as [[x []]|].
  - left. unfold deliver. destruct (slots st !! i) as [[x []]|]; try done.
    simpl. unfold settle. by destruct (_ !! i) as [[|?]|].
  - unfold finally.
    destruct (slots st !! i) as [[x []]|] eqn:Hi; try (by left).
    apply queued_or_scheduled_pump_loop;
      [done | eapply Wf_release; eauto | by left].
Qed.

Lemma queued_record_is_kept_or_dispatched_witness :
  second_record ∈ q (step (exec (two_submitted ++ [EvRun 1;
                       EvComplete 1 (Returns 7); EvDeliver 1]) one_at_a_time)
                          (EvFinally 1 noon))
  ∨ slots (step (exec (two_submitted ++ [EvRun 1;
                  EvComplete 1 (Returns 7); EvDeliver 1]) one_at_a_time)
                (EvFinally 1 noon)) !! id second_record
      = Some (Slot second_record Scheduled).
Proof.
  apply (queued_record_is_kept_or_dispatched
           (Obj (QueueOpts (Some 1) (Some 150))) one_at_a_time
           (two_submitted ++ [EvRun 1; EvComplete 1 (Returns 7); EvDeliver 1])
           (EvFinally 1 noon) second_record).
  - reflexivity.
  - vm_compute. apply list_elem_of_here.
  - reflexivity.
  - discriminate.
Defined.

(** ** Cancellation between dispatch and call *)

(** X12. The [canceled] flag is read only when a record leaves the queue.
    If [cancel] comes after the dispatch but before the queued reaction calls
    the work unit, the promise is rejected with the cancellation error and the
    work unit is called all the same, keeping its slot. *)
Theorem cancel_after_dispatch_does_not_stop_call (st : state) (i : nat)
    (it : item) :
  slots st !! i = Some (Slot it Scheduled) → run it = Callable →
  observed i st = Some Pending →
  observed i (exec [EvCancel i; EvRun i] st)
    = Some (Settled (Rejected CancelError))
  ∧ trace (exec [EvCancel i; EvRun i] st)
      = trace st ++ [Settle i (Rejected CancelError); Invoke i]
  ∧ slot_phase <$> slots (exec [EvCancel i; EvRun i] st) !! i = Some InFlight
  ∧ running (exec [EvCancel i; EvRun i] st) = running st.
Proof.
  intros Hs Hr Hp. simpl. unfold run_reaction.
  rewrite slots_cancel, lookup_fmap, Hs. simpl. rewrite run_mark, Hr.
  unfold observed in *. unfold cancel, settle. simpl. rewrite Hp. simpl.
  rewrite lookup_insert_eq, <- app_assoc. split_and!; try done.
  by rewrite lookup_insert_eq.
Qed.

Lemma cancel_after_dispatch_does_not_stop_call_witness :
  observed 1 (exec [EvCancel 1; EvRun 1]
                (step demo_queue (EvEnqueue Callable Undefined 0 noon)))
    = Some (Settled (Rejected CancelError))
  ∧ trace (exec [EvCancel 1; EvRun 1]
             (step demo_queue (EvEnqueue Callable Undefined 0 noon)))
      = trace (step demo_queue (EvEnqueue Callable Undefined 0 noon))
          ++ [Settle 1 (Rejected CancelError); Invoke 1]
  ∧ slot_phase <$> slots (exec [EvCancel 1; EvRun 1]
                            (step demo_queue
                                  (EvEnqueue Callable Undefined 0 noon)))
                     !! 1%nat = Some InFlight
  ∧ running (exec [EvCancel 1; EvRun 1]
               (step demo_queue (EvEnqueue Callable Undefined 0 noon)))
      = running (step demo_queue (EvEnqueue Callable Undefined 0 noon)).
Proof.
  apply (cancel_after_dispatch_does_not_stop_call
           (step demo_queue (EvEnqueue Callable Undefined 0 noon)) 1
           (Item 1 1 0 Callable false)); reflexivity.
Defined.

(** ** Submission *)



(** ** No overtaking within a class *)

Lemma score_dominates (a now : Z) (x y : item) :
  0 < a → priority x ≤ priority y → enqueuedAt x ≤ enqueuedAt y →
  score a x now ≤ score a y now.
Proof.
  intros Ha Hp Ht. unfold score.
  assert ((now - enqueuedAt y) / a ≤ (now - enqueuedAt x) / a)
    by (apply Z.div_le_mono; lia).
  lia.
Qed.

(** X14. A record is never overtaken by a record behind it in the queue that
    is of the same or a less urgent class and was not submitted at an earlier
    clock reading: with [agingMs > 0] the selector does not return the
    position of the later record, at any time and whatever aging has
    elapsed. *)
Theorem no_overtaking_within_class (a now : Z) (l : list item) (n k : nat)
    (x y : item) :
  0 < a → l !! n = Some x → l !! k = Some y → (n < k)%nat →
  priority x ≤ priority y → enqueuedAt x ≤ enqueuedAt y →
  pickNextIndex a l now ≠ Z.of_nat k.
Proof.
  intros Ha Hx Hy Hnk Hp Ht Hpick.
  destruct (pickNextIndex_first_min a now l) as
    (m & s & Hm & sel & Hsel & Hs & _ & Hfirst).
  { intros ->. done. }
  assert (m = k) as -> by lia.
  assert (sel = y) as -> by congruence.
  specialize (Hfirst n x Hnk Hx).
  pose proof (score_dominates a now x y Ha Hp Ht). lia.
Qed.

Lemma no_overtaking_within_class_witness :
  pickNextIndex 150 [ Item 1 Priority.low 0 Callable false;
                      Item 2 Priority.low 10 Callable false ] 400
    ≠ Z.of_nat 1.
Proof.
  apply (no_overtaking_within_class 150 400
           [ Item 1 Priority.low 0 Callable false;
             Item 2 Priority.low 10 Callable false ] 0 1
           (Item 1 Priority.low 0 Callable false)
           (Item 2 Priority.low 10 Callable false));
    first [reflexivity | lia | (vm_compute; discriminate)].
Defined.

(** ** Cancellation of a finished task *)

(** X15. [cancel] on a task that is finished (settled, no longer queued and
    holding no slot) changes nothing at all: the whole queue state is as
    before. *)
Theorem cancel_of_finished_task_is_noop (arg : jsarg queue_opts)
    (st0 : state) (evs : list event) (i : nat) (o : outcome) :
  createTaskQueue arg = Normal st0 →
  observed i (exec evs st0) = Some (Settled o) →
  (∀ it, it ∈ q (exec evs st0) → id it ≠ i) →
  slots (exec evs st0) !! i = None →
  cancel i (exec evs st0) = exec evs st0.
Proof.
  intros Hc Ho Hq Hs.
  pose proof (Inv_exec evs st0 (Inv_created _ _ Hc)) as [HWf _].
  set (st := exec evs st0) in *.
  unfold cancel, settle. cbn [promises mark_canceled].
  unfold observed in Ho. rewrite Ho. unfold mark_canceled.
  destruct st as [c a r n l sl pr tr] eqn:Est. simpl in *. f_equal.
  - apply list_eq. intros k. rewrite list_lookup_fmap.
    destruct (l !! k) as [it|] eqn:Hk; [|done]. simpl.
    rewrite mark_other; [done|]. apply Hq. by eapply list_elem_of_lookup_2.
  - apply map_eq. intros k. rewrite lookup_fmap.
    destruct (sl !! k) as [s|] eqn:Hk; [|done]. simpl.
    destruct (wf_slot_issued _ HWf k s Hk) as [Hid _].
    unfold mark_slot. rewrite mark_other; [by destruct s|].
    rewrite Hid. intros ->. congruence.
Qed.

Lemma cancel_of_finished_task_is_noop_witness :
  cancel 1 (exec demo_events demo_queue) = exec demo_events demo_queue.
Proof.
  apply (cancel_of_finished_task_is_noop
           (Obj (QueueOpts (Some 2) (Some 150))) demo_queue demo_events 1
           (Fulfilled 11)).
  - reflexivity.
  - vm_compute. reflexivity.
  - intros it Hin. vm_compute in Hin.
    apply list_elem_of_singleton in Hin. subst it. discriminate.
  - vm_compute. reflexivity.
Defined.

(** ** A finished chain makes room *)

Lemma q_length_pump_loop (fuel : nat) (clk : nat → Z) (k : nat) (st : state) :
  (length (q (pump_loop fuel clk k st)) ≤ length (q st))%nat.
Proof.
  apply (pump_loop_preserves
           (λ s, (length (q s) ≤ length (q st))%nat)); [| |lia].
  - intros s n it _ Hit _ Hle. simpl. rewrite length_delete by eauto. lia.
  - intros s n it _ Hit _ Hle. simpl. rewrite length_delete by eauto. lia.
Qed.

(** X17. Every finished chain takes a waiting record out of the queue: when
    the [finally] reaction of a dispatched record runs on a queue with a
    limit [>= 1] while records wait, it decrements [running] and the [pump]
    it calls removes at least one record from the queue, whatever the outcome
    of the finished task was. *)
Theorem finished_chain_makes_room (arg : jsarg queue_opts) (st0 : state)
    (evs : list event) (i : nat) (it : item) (clk : nat → Z) :
  createTaskQueue arg = Normal st0 → 1 ≤ concurrency st0 →
  slots (exec evs st0) !! i = Some (Slot it Delivered) →
  q (exec evs st0) ≠ [] →
  (length (q (step (exec evs st0) (EvFinally i clk)))
     < length (q (exec evs st0)))%nat
  ∧ slots (step (exec evs st0) (EvFinally i clk)) !! i = None.
Proof.
  intros Hc Hpos Hi Hq.
  pose proof (Inv_exec evs st0 (Inv_created _ _ Hc)) as [HWf HH].
  destruct (config_reachable st0 (exec evs st0)) as [Hcc _].
  { apply reachable_exec. constructor. }
  set (st := exec evs st0) in *.
  pose proof (wf_budget _ HWf) as Hb.
  set (st1 := State (concurrency st) (agingMs st) (running st - 1) (idSeq st)
                (q st) (delete i (slots st)) (promises st) (trace st)).
  assert (Wf st1) as HWf1 by (eapply Wf_release; eauto).
  assert (Hfin : step st (EvFinally i clk) = pump clk st1).
  { simpl. unfold finally. by rewrite Hi. }
  rewrite Hfin. split.
  - unfold pump. cbn [pump_loop].
    change (running st1) with (running st - 1).
    change (concurrency st1) with (concurrency st).
    change (q st1) with (q st). change (agingMs st1) with (agingMs st).
    destruct (Z.ltb_spec (running st - 1) (concurrency st)); [|lia].
    destruct (pickNextIndex_range (agingMs st) (clk 0%nat) (q st) Hq)
      as (n & x & Hn & Hx).
    rewrite Hn, Nat2Z.id, Hx.
    destruct (Z.eqb_spec (Z.of_nat n) (-1)); [lia|].
    assert (length (delete n (q st)) < length (q st))%nat as Hlen.
    { rewrite length_delete by eauto. apply lookup_lt_Some in Hx. lia. }
    destruct (canceled x);
      (eapply Nat.le_lt_trans; [apply q_length_pump_loop | exact Hlen]).
  - assert (Dispatch i ∈ trace st1) as Hd by (apply (hist_slot _ HH _ _ Hi)).
    unfold pump.
    apply (pump_loop_preserves
             (λ s, Wf s ∧ Hist s ∧ slots s !! i = None
                   ∧ Dispatch i ∈ trace s)).
    + intros s n x _ _ _ (HW & HHs & Hs & Hds).
      split_and!; [by apply Wf_drop | by apply Hist_drop | done | done].
    + intros s n x Hlt Hx _ (HW & HHs & Hs & Hds).
      split_and!; [by apply Wf_dispatch | by apply Hist_dispatch | |].
      * simpl. rewrite lookup_insert_ne; [done|]. intros Heq.
        apply list_elem_of_lookup_2 in Hx.
        by specialize (hist_q _ HHs _ _ Hx Hds (eq_sym Heq)).
      * simpl. apply elem_of_app. by left.
    + split_and!; [done | by apply Hist_release | | done].
      simpl. apply lookup_delete_eq.
Qed.

Lemma finished_chain_makes_room_witness :
  (length (q (step (exec (two_submitted ++ [EvRun 1;
                      EvComplete 1 (Throws (Failure 3)); EvDeliver 1]) one_at_a_time)
                   (EvFinally 1 noon)))
     < length (q (exec (two_submitted ++ [EvRun 1;
                    EvComplete 1 (Throws (Failure 3)); EvDeliver 1]) one_at_a_time)))%nat
  ∧ slots (step (exec (two_submitted ++ [EvRun 1;
                  EvComplete 1 (Throws (Failure 3)); EvDeliver 1]) one_at_a_time)
                (EvFinally 1 noon)) !! 1%nat = None.
Proof.
  apply (finished_chain_makes_room (Obj (QueueOpts (Some 1) (Some 150)))
           one_at_a_time
           (two_submitted ++ [EvRun 1; EvComplete 1 (Throws (Failure 3)); EvDeliver 1])
           1 (Item 1 1 0 Callable false) noon).
  - reflexivity.
  - vm_compute. discriminate.
  - vm_compute. reflexivity.
  - vm_compute. discriminate.
Defined.
